(** * analytics_util: a shallow embedding and its verified properties

    The module [analytics_util.py] is a batch pipeline over news articles:
    text normalisation ([lemmatize]), near-duplicate removal
    ([remove_similar]), term salience ([tf_idf_nitems]), extractive
    summaries ([digest]), role relevance ([eval_article]) and trend
    detection ([generate_trend_wordcloud]).

    The language model, the TF-IDF vectoriser, the LexRank summariser and
    the k-means clustering are third-party capabilities; each is an
    interface (a type class) here, and every theorem holds for all of its
    implementations.  What the Python code itself does (regular
    expressions, loops, slicing, counters, sorting, the median) is
    written out as executable functions. *)

From Stdlib Require Import String Ascii.
From Stdlib Require Import List ZArith NArith QArith Bool Arith Lia.
From Stdlib Require Import Permutation Sorted Lqa.
Import ListNotations.

Set Implicit Arguments.
Open Scope list_scope.
Open Scope nat_scope.

(* ===================================================================== *)
(** * Part I: the embedding *)
(* ===================================================================== *)

(** ** Python values *)

Module Py.

(** A Python [str] is a sequence of Unicode code points. *)
Definition str := list N.

Fixpoint str_eqb (a b : str) : bool :=
  match a, b with
  | [], [] => true
  | x :: a', y :: b' => N.eqb x y && str_eqb a' b'
  | _, _ => false
  end.

(** Reads a UTF-8 literal (one- and two-byte sequences, which cover the
    Latin and Cyrillic letters used in the examples) as code points. *)
Fixpoint utf8 (s : string) : str :=
  match s with
  | EmptyString => []
  | String a rest =>
      let n := N_of_ascii a in
      if (n <? 128)%N then n :: utf8 rest
      else match rest with
           | EmptyString => [n]
           | String b rest' =>
               ((n - 192) * 64 + (N_of_ascii b - 128))%N :: utf8 rest'
           end
  end.

(** [sep.join(xs)] *)
Fixpoint join (sep : str) (xs : list str) : str :=
  match xs with
  | [] => []
  | [x] => x
  | x :: rest => x ++ sep ++ join sep rest
  end.

(** The exceptions this module can raise.  An exception that escapes a
    third-party call is a [LibraryError] naming the call. *)
Inductive exn : Type :=
| ValueError (msg : string)
| StatisticsError (msg : string)
| LibraryError (origin : string).

Inductive result (A : Type) : Type :=
| Ok (a : A)
| Raise (e : exn).
Arguments Ok {A} a.
Arguments Raise {A} e.

Definition bind {A B} (r : result A) (k : A -> result B) : result B :=
  match r with
  | Ok a => k a
  | Raise e => Raise e
  end.

(** A library call that either returns or raises. *)
Definition lift {A} (origin : string) (o : option A) : result A :=
  match o with
  | Some a => Ok a
  | None => Raise (LibraryError origin)
  end.

(** Slices [l[:n]] and [l[n:]] with Python's reading of a negative bound. *)
Definition slice_to {A} (n : Z) (l : list A) : list A :=
  if (0 <=? n)%Z then firstn (Z.to_nat n) l
  else firstn (length l - Z.to_nat (- n)) l.

Definition slice_from {A} (n : Z) (l : list A) : list A :=
  if (0 <=? n)%Z then skipn (Z.to_nat n) l
  else skipn (length l - Z.to_nat (- n)) l.

(** pandas [head(n)] is [iloc[:n]]; [tail(n)] is empty for [n = 0] and
    [iloc[-n:]] otherwise. *)
Definition head {A} (n : Z) (l : list A) : list A := slice_to n l.

Definition tail {A} (n : Z) (l : list A) : list A :=
  if (n =? 0)%Z then [] else slice_from (- n) l.

(** [itertools.combinations(l, 2)] *)
Fixpoint combinations {A} (l : list A) : list (A * A) :=
  match l with
  | [] => []
  | x :: rest => map (pair x) rest ++ combinations rest
  end.

(** [itertools.product(a, b)] *)
Definition product {A B} (a : list A) (b : list B) : list (A * B) :=
  flat_map (fun x => map (pair x) b) a.

(** [enumerate(l)] from a start index *)
Fixpoint enumerate_from {A} (i : nat) (l : list A) : list (nat * A) :=
  match l with
  | [] => []
  | x :: rest => (i, x) :: enumerate_from (S i) rest
  end.

End Py.
Import Py.

Declare Scope py_scope.
Notation "x <- r ;; k" := (bind r (fun x => k))
  (at level 61, r at next level, right associativity) : py_scope.
Open Scope py_scope.

(** ** The language model (spaCy's [ru_core_news_lg], the global [NLP]) *)

(** Universal part-of-speech tags, the values of [token.pos_]. *)
Inductive POS : Type :=
| ADJ | ADP | ADV | AUX | CCONJ | DET | INTJ | NOUN | NUM | PART
| PRON | PROPN | PUNCT | SCONJ | SYM | VERB | X | SPACE.

Definition POS_eqb (a b : POS) : bool :=
  match a, b with
  | ADJ, ADJ | ADP, ADP | ADV, ADV | AUX, AUX | CCONJ, CCONJ | DET, DET
  | INTJ, INTJ | NOUN, NOUN | NUM, NUM | PART, PART | PRON, PRON
  | PROPN, PROPN | PUNCT, PUNCT | SCONJ, SCONJ | SYM, SYM | VERB, VERB
  | X, X | SPACE, SPACE => true
  | _, _ => false
  end.

Definition POS_TAGS : list POS := [NOUN; ADJ; VERB; ADV; PROPN].

(** [NLP(text)] is a document: a sequence of tokens, each with a lemma and
    a tag, and a similarity against other documents.  Scores are modelled
    as rationals. *)
Class SpacyModel : Type := {
  Doc : Type;
  Token : Type;
  NLP : str -> Doc;
  tokens : Doc -> list Token;
  lemma_ : Token -> str;
  pos_ : Token -> POS;
  similarity : Doc -> Doc -> Q
}.

(** [len(doc)] *)
Definition doc_len `{M : SpacyModel} (d : Doc) : nat := length (tokens d).

(** ** Text Normalizer: [lemmatize] *)

Module Normalizer.

(** [\s] on a [str] pattern: the code points for which [str.isspace]
    holds. *)
Definition is_space (c : N) : bool :=
  ((9 <=? c) && (c <=? 13) || (28 <=? c) && (c <=? 32)
   || (c =? 133) || (c =? 160) || (c =? 5760)
   || (8192 <=? c) && (c <=? 8202)
   || (c =? 8232) || (c =? 8233) || (c =? 8239) || (c =? 8287)
   || (c =? 12288))%N.

(** The class [[а-яА-Я]]: U+0430..U+044F and U+0410..U+042F. *)
Definition is_cyrillic (c : N) : bool :=
  ((1072 <=? c) && (c <=? 1103) || (1040 <=? c) && (c <=? 1071))%N.

Definition at_sign : N := 64%N.
Definition newline : N := 10%N.
Definition blank : N := 32%N.
Definition http : str := [104; 116; 116; 112]%N.
Definition www : str := [119; 119; 119]%N.

(** [s] starts with the literal [p]. *)
Fixpoint starts_with (p s : str) : bool :=
  match p, s with
  | [], _ => true
  | x :: p', y :: s' => N.eqb x y && starts_with p' s'
  | _ :: _, [] => false
  end.

(** *** [re.sub(r'\S*@\S*\s?', '', article)]

    A match starts at a position exactly when the run of non-space
    characters from there holds an [@] (the greedy [\S*] backtracks to the
    last one); it then takes the rest of the run and one space after it.
    [re.sub] replaces the leftmost matches, left to right. *)
Fixpoint run_has_at (s : str) : bool :=
  match s with
  | [] => false
  | c :: t => if is_space c then false else N.eqb c at_sign || run_has_at t
  end.

Fixpoint sub_email_go (in_match : bool) (s : str) : str :=
  match s with
  | [] => []
  | c :: t =>
      if in_match then
        if is_space c then sub_email_go false t   (* the final [\s?] *)
        else sub_email_go true t
      else if run_has_at s then sub_email_go true t
      else c :: sub_email_go false t
  end.

Definition sub_email (s : str) : str := sub_email_go false s.

(** *** [re.sub(r'http\S+', '', article)]

    A match starts where [http] is followed by a non-space character and
    runs to the end of that run. *)
Definition http_here (s : str) : bool :=
  starts_with http s &&
  match skipn 4 s with
  | c :: _ => negb (is_space c)
  | [] => false
  end.

Fixpoint sub_http_go (in_match : bool) (s : str) : str :=
  match s with
  | [] => []
  | c :: t =>
      if in_match then
        if is_space c then c :: sub_http_go false t
        else sub_http_go true t
      else if http_here s then sub_http_go true t
      else c :: sub_http_go false t
  end.

Definition sub_http (s : str) : str := sub_http_go false s.

(** *** [re.sub(r'www.\S+', '', article)]

    The dot is any character but a newline (a space too); a match is
    [www], that character, and a non-empty run of non-space characters.
    [fixed] counts the characters of the fixed part still to drop. *)
Definition www_here (s : str) : bool :=
  starts_with www s &&
  match skipn 3 s with
  | d :: c :: _ => negb (N.eqb d newline) && negb (is_space c)
  | _ => false
  end.

Fixpoint sub_www_go (fixed : nat) (in_run : bool) (s : str) : str :=
  match s with
  | [] => []
  | c :: t =>
      match fixed with
      | S k => sub_www_go k in_run t
      | O =>
          if in_run then
            if is_space c then c :: sub_www_go 0 false t
            else sub_www_go 0 true t
          else if www_here s then sub_www_go 3 true t
          else c :: sub_www_go 0 false t
      end
  end.

Definition sub_www (s : str) : str := sub_www_go 0 false s.

(** *** [re.sub('[^а-яА-Я]+', ' ', article)]

    Every maximal run of characters outside the class becomes one
    space. *)
Fixpoint sub_non_cyrillic_go (in_run : bool) (s : str) : str :=
  match s with
  | [] => []
  | c :: t =>
      if is_cyrillic c then c :: sub_non_cyrillic_go false t
      else if in_run then sub_non_cyrillic_go true t
      else blank :: sub_non_cyrillic_go true t
  end.

Definition sub_non_cyrillic (s : str) : str := sub_non_cyrillic_go false s.

(** The four substitutions, in the order of the source. *)
Definition clean (article : str) : str :=
  sub_non_cyrillic (sub_www (sub_http (sub_email article))).

Definition allowed (p : POS) : bool := existsb (POS_eqb p) POS_TAGS.

Definition lemmatize `{M : SpacyModel} (article : str) : list str :=
  let doc := NLP (clean article) in
  map lemma_ (filter (fun token => allowed (pos_ token)) (tokens doc)).

(** *** Email-like and URL-like text

    A string is email-like when the first pattern matches all of it, and
    URL-like when the second or the third does. *)
Definition email_like (u : str) : bool :=
  let body := match rev u with
              | c :: r => if is_space c then rev r else u
              | [] => u
              end in
  forallb (fun c => negb (is_space c)) body && existsb (N.eqb at_sign) body.

Definition url_like (u : str) : bool :=
  (starts_with http u &&
   negb (Nat.eqb (length (skipn 4 u)) 0) &&
   forallb (fun c => negb (is_space c)) (skipn 4 u))
  ||
  (starts_with www u &&
   match skipn 3 u with
   | d :: rest =>
       negb (N.eqb d newline) && negb (Nat.eqb (length rest) 0) &&
       forallb (fun c => negb (is_space c)) rest
   | [] => false
   end).

(** [u] occurs in [s] as a contiguous substring. *)
Definition occurs_in (u s : str) : Prop :=
  exists pre post, s = pre ++ u ++ post.

(** Letters of the Cyrillic block, U+0400..U+04FF. *)
Definition cyrillic_block (c : N) : bool := ((1024 <=? c) && (c <=? 1279))%N.

(** What the last substitution leaves: letters of the class and
    spaces. *)
Definition in_script (c : N) : bool := is_cyrillic c || N.eqb c blank.

(** The contract of the lemmatiser that the normaliser relies on: in a
    text written in Cyrillic letters and spaces, the lemma of a token
    with one of the tags of [POS_TAGS] is written in Cyrillic letters.
    Nothing is asked of the other tokens (the whitespace token that the
    model makes of a leading space has a space for its lemma). *)
Class LemmasInScript `{M : SpacyModel} : Prop :=
  lemmas_in_script :
    forall text token,
      forallb in_script text = true ->
      In token (tokens (NLP text)) ->
      allowed (pos_ token) = true ->
      forallb cyrillic_block (lemma_ token) = true.

(** [a] is [b] with some characters deleted: nothing added, nothing
    reordered. *)
Inductive deleted_from : str -> str -> Prop :=
| deleted_nil : deleted_from [] []
| deleted_keep c a b : deleted_from a b -> deleted_from (c :: a) (c :: b)
| deleted_drop c a b : deleted_from a b -> deleted_from a (c :: b).

(** No position of [s] starts a match of [http\S+]. *)
Fixpoint http_free (s : str) : bool :=
  match s with
  | [] => true
  | _ :: t => negb (http_here s) && http_free t
  end.

(** The text starts with a space. *)
Definition starts_blank (s : str) : bool :=
  match s with
  | c :: _ => N.eqb c blank
  | [] => false
  end.

(** No two spaces in a row. *)
Fixpoint single_spaced (s : str) : bool :=
  match s with
  | [] => true
  | c :: t =>
      match t with
      | d :: _ => negb (N.eqb c blank && N.eqb d blank)
      | [] => true
      end && single_spaced t
  end.

End Normalizer.

(** ** Semantic Deduplicator: [remove_similar] *)

Module Dedup.

(** A row of the dataframe: its index label and its ["Digest"] cell (the
    other columns play no part). *)
Record Row : Type := { index : Z; Digest : list str }.

Definition DataFrame := list Row.

(** A [Doc] object.  spaCy's [Doc] defines no equality of its own, so
    [==] on two of them is object identity; [oid] is that identity: the
    position of the row the object was created for. *)
Record DocObj `{M : SpacyModel} : Type := { oid : nat; doc : Doc }.

(** A series of [Doc] objects: index label and value, in row order. *)
Definition Series `{M : SpacyModel} := list (Z * DocObj).

Section WithModel.
Context `{M : SpacyModel}.

(** The entry of the series for a row at a position: the row's label and
    [NLP(" ".join(x))] of its digest, a fresh object. *)
Definition object_for (ir : nat * Row) : Z * DocObj :=
  (index (snd ir),
   {| oid := fst ir;
      doc := NLP (join [Normalizer.blank] (Digest (snd ir))) |}).

(** [copy.deepcopy(dataframe["Digest"]).map(lambda x: NLP(" ".join(x)))] *)
Definition temp_series (dataframe : DataFrame) : Series :=
  map object_for (enumerate_from 0 dataframe).

(** Iterating a series yields its values. *)
Definition digest_pairs (dataframe : DataFrame) : list (DocObj * DocObj) :=
  combinations (map snd (temp_series dataframe)).

Definition obj_eqb (a b : DocObj) : bool := Nat.eqb (oid a) (oid b).

(** [temp_series.index[temp_series == candidate]] *)
Definition index_where (s : Series) (candidate : DocObj) : list Z :=
  map fst (filter (fun e => obj_eqb (snd e) candidate) s).

Definition has_label (dataframe : DataFrame) (l : Z) : bool :=
  existsb (fun r => Z.eqb (index r) l) dataframe.

(** [dataframe.drop(labels)]: [None] is the [KeyError] raised when a label
    is not in the index; otherwise every row with one of the labels
    goes. *)
Definition drop (dataframe : DataFrame) (labels : list Z) : option DataFrame :=
  if forallb (has_label dataframe) labels
  then Some (filter (fun r => negb (existsb (Z.eqb (index r)) labels)) dataframe)
  else None.

Definition threshold : Q := 87 # 100.

Definition similar (d1 d2 : DocObj) : bool :=
  Qle_bool threshold (similarity (doc d1) (doc d2)).

(** [digest1 if len(digest1) > len(digest2) else digest2] *)
Definition candidate (digest1 digest2 : DocObj) : DocObj :=
  if doc_len (doc digest2) <? doc_len (doc digest1) then digest1 else digest2.

(** One turn of the loop over the pairs. *)
Definition step (series : Series) (dataframe : DataFrame)
    (pair : DocObj * DocObj) : DataFrame :=
  let (digest1, digest2) := pair in
  if similar digest1 digest2 then
    match drop dataframe (index_where series (candidate digest1 digest2)) with
    | Some dataframe' => dataframe'
    | None => dataframe          (* except KeyError: continue *)
    end
  else dataframe.

Definition remove_similar (dataframe : DataFrame) : DataFrame :=
  let series := temp_series dataframe in
  fold_left (step series) (digest_pairs dataframe) dataframe.

(** The index label of the row a [Doc] object was made for. *)
Definition label_of (dataframe : DataFrame) (d : DocObj) : Z :=
  match nth_error dataframe (oid d) with
  | Some r => index r
  | None => 0%Z
  end.

(** The labels of the removal candidates of the similar pairs among
    [pairs]. *)
Definition labels_of (dataframe : DataFrame) (pairs : list (DocObj * DocObj))
    : list Z :=
  map (fun p => label_of dataframe (candidate (fst p) (snd p)))
      (filter (fun p => similar (fst p) (snd p)) pairs).

(** The labels the pass asks to drop: one per similar pair. *)
Definition dropped_labels (dataframe : DataFrame) : list Z :=
  labels_of dataframe (digest_pairs dataframe).

(** The row's label is none of [labels]. *)
Definition keeps (labels : list Z) (r : Row) : bool :=
  negb (existsb (Z.eqb (index r)) labels).

(** The parsed digest of a row, its length, and whether two rows are
    near-duplicates: what the loop computes for the objects of the two
    rows. *)
Definition parsed (r : Row) : Doc :=
  NLP (join [Normalizer.blank] (Digest r)).

Definition digest_len (r : Row) : nat := doc_len (parsed r).

Definition near_duplicates (r1 r2 : Row) : bool :=
  Qle_bool threshold (similarity (parsed r1) (parsed r2)).

End WithModel.

End Dedup.

(** ** Term Salience Extractor: [tf_idf_nitems] *)

Module Salience.

(** What the code reads off the fitted vectoriser: the feature names
    ([get_feature_names_out()], the vocabulary learnt from the article)
    and row 0 of the TF-IDF matrix, one weight per feature. *)
Record Fitted : Type := { feature_names : list str; row0 : list Q }.

(** [TfidfVectorizer(use_idf=True).fit_transform]; [None] when it raises
    (an empty vocabulary). *)
Class Vectorizer : Type := { fit_transform : list str -> option Fitted }.

Class VectorizerLaws `{V : Vectorizer} : Prop := {
  row_width : forall article m,
      fit_transform article = Some m ->
      length (row0 m) = length (feature_names m);
  features_distinct : forall article m,
      fit_transform article = Some m -> NoDup (feature_names m)
}.

(** The vectoriser's analyser ([build_analyzer()]): the tokens it reads
    in one entry of the article.  With the defaults of the source it
    lower-cases the entry and takes its words of two or more
    characters. *)
Class Analyzer : Type := { build_analyzer : str -> list str }.

(** Every token read in the entries of the article, in order. *)
Definition tokens_of `{A : Analyzer} (article : list str) : list str :=
  flat_map build_analyzer article.

(** The vocabulary the vectoriser learns is the set of the tokens its
    analyser reads in the entries. *)
Class VocabularyLaw `{V : Vectorizer} `{A : Analyzer} : Prop :=
  vocabulary_tokens : forall article m,
    fit_transform article = Some m ->
    forall t, In t (feature_names m) <-> In t (tokens_of article).

(** The distinct terms of a list, each at its first place. *)
Fixpoint distinct (l : list str) : list str :=
  match l with
  | [] => []
  | x :: rest => x :: filter (fun y => negb (str_eqb x y)) (distinct rest)
  end.

(** [results.sort_values('TF-IDF', ascending=False)]: pandas sorts with an
    unstable algorithm by default, so only the contract is fixed: the rows
    are rearranged, weights descending. *)
Class Sorter : Type := { sort_values : list (str * Q) -> list (str * Q) }.

Definition descending (a b : str * Q) : Prop := (snd b <= snd a)%Q.

Class SorterLaws `{S : Sorter} : Prop := {
  sort_perm : forall rows, Permutation rows (sort_values rows);
  sort_desc : forall rows, StronglySorted descending (sort_values rows)
}.

Section WithLibraries.
Context `{V : Vectorizer} `{S : Sorter}.

Definition tf_idf_nitems (article : list str) (n : Z) : result (list str) :=
  tf_idf <- lift "TfidfVectorizer.fit_transform" (fit_transform article) ;;
  let results := combine (feature_names tf_idf) (row0 tf_idf) in
  let results := sort_values results in
  Ok (map fst (head n results)).

End WithLibraries.

(** The weight of a term in the fitted row. *)
Fixpoint weight_in (rows : list (str * Q)) (term : str) : Q :=
  match rows with
  | [] => 0
  | (t, w) :: rest => if str_eqb t term then w else weight_in rest term
  end.

Definition weight (m : Fitted) (term : str) : Q :=
  weight_in (combine (feature_names m) (row0 m)) term.

End Salience.

(** ** Extractive Summarizer: [digest] *)

Module Summarizer.

(** sumy: the parser's sentence split, the LexRank summariser [LRS] and
    [str(sentence)]. *)
Class Sumy : Type := {
  Sentence : Type;
  sentences : str -> list Sentence;
  LRS : list Sentence -> Z -> list Sentence;
  sentence_str : Sentence -> str
}.

(** An extractive summariser selects sentences of the document. *)
Class Extractive `{S : Sumy} : Prop :=
  extractive : forall document n s, In s (LRS document n) -> In s document.

(** The summariser rates every sentence and hands back the [n] best
    rated, all of them when the document has fewer: for [n >= 0],
    [min n s] sentences of a document of [s] sentences. *)
Class SelectsCount `{S : Sumy} : Prop :=
  selects_count : forall document n,
    (0 <= n)%Z ->
    length (LRS document n) = Nat.min (Z.to_nat n) (length document).

Definition digest `{S : Sumy} (article : str) (n : Z) : list str :=
  let document := sentences article in
  let lexrank_summary := LRS document n in
  fold_left (fun digest_sentences sentence =>
               digest_sentences ++ [sentence_str sentence])
            lexrank_summary [].

End Summarizer.

(** ** Relevance Scorer: [eval_article] *)

Module Relevance.

(** [sorted(data)]: a stable sort, ascending. *)
Fixpoint insert_asc (x : Q) (l : list Q) : list Q :=
  match l with
  | [] => [x]
  | y :: rest => if Qle_bool x y then x :: l else y :: insert_asc x rest
  end.

Definition sorted (data : list Q) : list Q := fold_right insert_asc [] data.

(** [statistics.median] *)
Definition median (data : list Q) : result Q :=
  let data := sorted data in
  let n := length data in
  if Nat.eqb n 0 then Raise (StatisticsError "no median for empty data")
  else if Nat.eqb (n mod 2) 1 then Ok (nth (n / 2) data 0%Q)
  else
    let i := n / 2 in
    Ok ((nth (i - 1) data 0 + nth i data 0) / 2)%Q.

Definition eval_article `{M : SpacyModel} (terms role_keywords : list str)
    : result Q :=
  let terms := map NLP terms in
  let role_keywords := map NLP role_keywords in
  let results :=
    fold_left (fun results pair =>
                 results ++ [similarity (fst pair) (snd pair)])
              (product terms role_keywords) [] in
  median results.

(** *** The specification's words

    The similarity of every (term, keyword) pair of the cross product. *)
Definition pairwise `{M : SpacyModel} (terms role_keywords : list str) : list Q :=
  flat_map (fun t => map (fun k => similarity (NLP t) (NLP k)) role_keywords)
           terms.

(** [m] is the median of [values]: the middle of the values in ascending
    order, or the mean of the two middle ones when their number is
    even. *)
Definition is_median (values : list Q) (m : Q) : Prop :=
  exists ordered,
    Permutation values ordered /\
    StronglySorted Qle ordered /\
    let n := length ordered in
    (n mod 2 = 1 -> nth_error ordered (n / 2) = Some m) /\
    (n mod 2 = 0 ->
     exists a b, nth_error ordered (n / 2 - 1) = Some a /\
                 nth_error ordered (n / 2) = Some b /\
                 m = ((a + b) / 2)%Q).

(** Two runs end alike: with equal scores, or with the same error. *)
Definition same_outcome (a b : result Q) : Prop :=
  match a, b with
  | Ok x, Ok y => (x == y)%Q
  | Raise e1, Raise e2 => e1 = e2
  | _, _ => False
  end.

End Relevance.

(** ** Trend Detector: [generate_trend_wordcloud] *)

Module Trend.

(** A [Counter]: keys in insertion order, each with its count. *)
Definition Counter := list (str * Z).

(** [c[k] = c.get(k, 0) + delta]: an existing key keeps its place, a new
    one goes last. *)
Fixpoint counter_add (k : str) (delta : Z) (c : Counter) : Counter :=
  match c with
  | [] => [(k, delta)]
  | (k', v) :: rest =>
      if str_eqb k' k then (k', (v + delta)%Z) :: rest
      else (k', v) :: counter_add k delta rest
  end.

(** [Counter(iterable)] *)
Definition count (items : list str) : Counter :=
  fold_left (fun c k => counter_add k 1 c) items [].

(** [self.subtract(other)] *)
Definition subtract (self other : Counter) : Counter :=
  fold_left (fun c kv => counter_add (fst kv) (- snd kv) c) other self.

(** [most_common()]: [sorted(items, key=itemgetter(1), reverse=True)], a
    stable sort, counts descending. *)
Fixpoint insert_desc (x : str * Z) (l : Counter) : Counter :=
  match l with
  | [] => [x]
  | y :: rest =>
      if (snd y <=? snd x)%Z then x :: l else y :: insert_desc x rest
  end.

Definition most_common (c : Counter) : Counter := fold_right insert_desc [] c.

(** [KMeans(n_clusters=3).fit_predict] on the column of values: a cluster
    label per value, or [None] when it raises.  The initialisation is
    random; a theorem over every instance covers every run. *)
Class KMeans : Type := { fit_predict : list Z -> option (list nat) }.

(** scikit-learn's contract: one label per sample, and at least as many
    samples as clusters. *)
Class KMeansLaws `{K : KMeans} : Prop := {
  labels_length : forall values y,
      fit_predict values = Some y -> length y = length values;
  enough_samples : forall values y,
      fit_predict values = Some y -> 3 <= length values
}.

Definition too_short : string :=
  "Given Series is too short to meaningfully find trends".

(** [int(len(articles) / 2)] *)
Definition half_point (articles : list (list str)) : Z :=
  (Z.of_nat (length articles) / 2)%Z.

Definition old_articles (articles : list (list str)) : list (list str) :=
  head (half_point articles) articles.

Definition new_articles (articles : list (list str)) : list (list str) :=
  tail (half_point articles - half_point articles mod 2)%Z articles.

(** The sorted frequency diff, [difference] in the source. *)
Definition difference (articles : list (list str)) : Counter :=
  let old_articles_counted := count (concat (old_articles articles)) in
  let new_articles_counted := count (concat (new_articles articles)) in
  most_common (subtract new_articles_counted old_articles_counted).

(** The loop [for i in range(1, len(y_pred))]: the first [i] with
    [y_pred[i] != y_pred[i - 1]], if any.  [prev] is [y_pred[i - 1]] and
    [rest] is [y_pred[i:]]. *)
Fixpoint first_change_from (i : nat) (prev : nat) (rest : list nat)
    : option nat :=
  match rest with
  | [] => None
  | y :: rest' =>
      if Nat.eqb y prev then first_change_from (S i) y rest' else Some i
  end.

Definition first_change (y_pred : list nat) : option nat :=
  match y_pred with
  | [] => None
  | y0 :: rest => first_change_from 1 y0 rest
  end.

Definition trending_keywords (difference : Counter) (y_pred : list nat)
    : Counter :=
  match first_change y_pred with
  | Some i => firstn i difference           (* [[0:i]] *)
  | None => []
  end.

(** The function up to the frequencies it hands to the word-cloud
    renderer; drawing and writing the image are not modelled. *)
Definition generate_trend_wordcloud `{K : KMeans} (articles : list (list str))
    : result Counter :=
  if length articles <? 20 then Raise (ValueError too_short)
  else
    let difference := difference articles in
    y_pred <- lift "KMeans.fit_predict" (fit_predict (map snd difference)) ;;
    Ok (trending_keywords difference y_pred).

(** *** The specification's words *)

(** The terms of a counter, in order. *)
Definition keys (c : Counter) : list str := map fst c.

(** The order of a descending frequency list. *)
Definition more_common (a b : str * Z) : Prop := (snd b <= snd a)%Z.

(** Position [i] is the first whose label differs from the label before
    it. *)
Definition first_label_change (y_pred : list nat) (i : nat) : Prop :=
  1 <= i < length y_pred /\
  nth i y_pred 0 <> nth (i - 1) y_pred 0 /\
  forall k, 1 <= k < i -> nth k y_pred 0 = nth (k - 1) y_pred 0.

Definition no_label_change (y_pred : list nat) : Prop :=
  forall k, 1 <= k < length y_pred -> nth k y_pred 0 = nth (k - 1) y_pred 0.

(** [c[k]]: the count of a key, zero for a key the counter lacks. *)
Fixpoint get (c : Counter) (k : str) : Z :=
  match c with
  | [] => 0%Z
  | (k', v) :: rest => if str_eqb k' k then v else get rest k
  end.

(** How many times [k] occurs among [items]. *)
Definition occurrences (items : list str) (k : str) : Z :=
  Z.of_nat (length (filter (fun x => str_eqb x k) items)).

End Trend.

(** ** Small implementations of the interfaces

    They make the definitions above run on concrete inputs, for the
    examples of Part II; the theorems quantify over every
    implementation. *)

Module Sample.

(** The pieces of [s] between separators, empty pieces dropped. *)
Fixpoint split_go (is_sep : N -> bool) (cur : str) (s : str) : list str :=
  match s with
  | [] => match cur with [] => [] | _ => [rev cur] end
  | c :: t =>
      if is_sep c then
        match cur with
        | [] => split_go is_sep [] t
        | _ => rev cur :: split_go is_sep [] t
        end
      else split_go is_sep (c :: cur) t
  end.

Definition split (is_sep : N -> bool) (s : str) : list str :=
  split_go is_sep [] s.

Definition mem (c : N) (s : str) : bool := existsb (N.eqb c) s.

(** Overlap coefficient of two texts: the share of the characters of the
    shorter one that occur in the other. *)
Definition overlap (a b : list str) : Q :=
  let a := concat a in
  let b := concat b in
  let (short, long) := if length a <=? length b then (a, b) else (b, a) in
  match short with
  | [] => 0
  | _ => Z.of_nat (length (filter (fun c => mem c long) short))
         # Pos.of_nat (length short)
  end.

(** A whitespace tokeniser with identity lemmas; words of at most two
    letters are tagged as adpositions, the others as nouns. *)
Definition spacy : SpacyModel := {|
  Doc := list str;
  Token := str;
  NLP := split Normalizer.is_space;
  tokens := fun d => d;
  lemma_ := fun t => t;
  pos_ := fun t => if length t <=? 2 then ADP else NOUN;
  similarity := overlap
|}.

(** scikit-learn's default analyser on Latin and Russian text: the entry
    is lower-cased, and its tokens are the maximal runs of word
    characters (letters, digits, the underscore) of two or more
    characters. *)
Definition lower (c : N) : N :=
  if ((65 <=? c) && (c <=? 90) || (1040 <=? c) && (c <=? 1071))%N
  then (c + 32)%N
  else if (c =? 1025)%N then 1105%N else c.

Definition is_word (c : N) : bool :=
  ((48 <=? c) && (c <=? 57) || (65 <=? c) && (c <=? 90)
   || (97 <=? c) && (c <=? 122) || (c =? 95)
   || (1040 <=? c) && (c <=? 1103) || (c =? 1025) || (c =? 1105))%N.

Definition analyze (entry : str) : list str :=
  filter (fun t => 2 <=? length t)
         (split (fun c => negb (is_word c)) (map lower entry)).

Definition analyzer : Salience.Analyzer := {|
  Salience.build_analyzer := analyze
|}.

(** Feature names come in the order of their code points. *)
Fixpoint str_leb (a b : str) : bool :=
  match a, b with
  | [], _ => true
  | _ :: _, [] => false
  | x :: a', y :: b' =>
      if (x <? y)%N then true
      else if (y <? x)%N then false
      else str_leb a' b'
  end.

Fixpoint insert_name (x : str) (l : list str) : list str :=
  match l with
  | [] => [x]
  | y :: rest => if str_leb x y then x :: l else y :: insert_name x rest
  end.

Definition sort_names (l : list str) : list str := fold_right insert_name [] l.

(** How often a term is among the tokens of an entry. *)
Definition frequency (entry : str) (term : str) : Q :=
  inject_Z (Z.of_nat (length (filter (str_eqb term) (analyze entry)))).

(** A vectoriser with that analyser: the vocabulary is the sorted set of
    the tokens of all entries, an empty vocabulary raises, and the first
    row weighs a term by its frequency in the first entry. *)
Definition vectorizer : Salience.Vectorizer := {|
  Salience.fit_transform := fun article =>
    let names :=
      sort_names (Salience.distinct (flat_map analyze article)) in
    match names with
    | [] => None
    | _ =>
        Some {| Salience.feature_names := names;
                Salience.row0 := map (frequency (hd [] article)) names |}
    end
|}.

Fixpoint insert_row (x : str * Q) (l : list (str * Q)) : list (str * Q) :=
  match l with
  | [] => [x]
  | y :: rest =>
      if Qle_bool (snd y) (snd x) then x :: l else y :: insert_row x rest
  end.

Definition sorter : Salience.Sorter := {|
  Salience.sort_values := fold_right insert_row []
|}.

(** Sentences end at a full stop; the summariser keeps the leading
    sentences. *)
Definition sumy : Summarizer.Sumy := {|
  Summarizer.Sentence := str;
  Summarizer.sentences := split (N.eqb 46);
  Summarizer.LRS := fun document n => slice_to n document;
  Summarizer.sentence_str := fun s => s
|}.

(** Three clusters by thirds of the value range. *)
Definition thirds (values : list Z) : list nat :=
  let lo := fold_right Z.min 0%Z values in
  let hi := fold_right Z.max 0%Z values in
  map (fun v =>
         if (2 * (hi - lo) <=? 3 * (v - lo))%Z then 0
         else if (hi - lo <=? 3 * (v - lo))%Z then 1 else 2)
      values.

Definition kmeans : Trend.KMeans := {|
  Trend.fit_predict := fun values =>
    if length values <? 3 then None else Some (thirds values)
|}.

(** Sample data *)

Definition voda : str := utf8 "вода".
Definition reka : str := utf8 "река".
Definition leto : str := utf8 "лето".
Definition zhara : str := utf8 "жара".
Definition bank : str := utf8 "банк".
Definition kredit : str := utf8 "кредит".
Definition finansy : str := utf8 "финансы".
Definition dengi : str := utf8 "деньги".
Definition rynok : str := utf8 "рынок".
Definition kurs : str := utf8 "курс".
Definition inflyatsiya : str := utf8 "инфляция".
Definition kto_to : str := utf8 "кто-то".
Definition kto : str := utf8 "кто".
Definition ya : str := utf8 "я".

(** Three near-identical digests, of 3, 4 and 2 tokens. *)
Definition three_rows : Dedup.DataFrame :=
  [ {| Dedup.index := 0; Dedup.Digest := [voda; reka; leto] |};
    {| Dedup.index := 1; Dedup.Digest := [voda; reka; leto; zhara] |};
    {| Dedup.index := 2; Dedup.Digest := [voda; reka] |} ].

(** The two digests of the specification's scenario. *)
Definition two_rows : Dedup.DataFrame :=
  [ {| Dedup.index := 0; Dedup.Digest := [voda; reka; leto] |};
    {| Dedup.index := 1; Dedup.Digest := [voda; reka; leto; zhara] |} ].

(** Two digests of equal length. *)
Definition tied_rows : Dedup.DataFrame :=
  [ {| Dedup.index := 0; Dedup.Digest := [voda; reka] |};
    {| Dedup.index := 1; Dedup.Digest := [reka; voda] |} ].

(** Two near-identical digests and one on another subject. *)
Definition mixed_rows : Dedup.DataFrame :=
  [ {| Dedup.index := 0; Dedup.Digest := [voda; reka; leto] |};
    {| Dedup.index := 1; Dedup.Digest := [voda; reka; leto; zhara] |};
    {| Dedup.index := 2; Dedup.Digest := [bank; kredit] |} ].

(** Ten older articles and nine or ten newer ones. *)
Definition batch (n_new : nat) : list (list str) :=
  repeat [rynok; bank; kurs] 10 ++ repeat [inflyatsiya; rynok; bank] n_new.

End Sample.

(* ===================================================================== *)
(** * Part II: properties *)
(* ===================================================================== *)

(** ** Facts about the Python helpers *)

Lemma str_eqb_eq (a b : str) : str_eqb a b = true <-> a = b.
Proof.
  revert b; induction a as [|x a IH]; intros [|y b]; simpl;
    try (split; [discriminate | congruence]); try tauto.
  rewrite andb_true_iff, N.eqb_eq, IH.
  split; [intros [-> ->]; reflexivity | intros [= -> ->]; auto].
Qed.

Lemma str_eqb_refl (a : str) : str_eqb a a = true.
Proof. apply str_eqb_eq; reflexivity. Qed.

Lemma str_eqb_neq (a b : str) : str_eqb a b = false <-> a <> b.
Proof.
  rewrite <- str_eqb_eq. destruct (str_eqb a b); split; congruence.
Qed.

Lemma slice_to_nonneg {A} (n : nat) (l : list A) :
  slice_to (Z.of_nat n) l = firstn n l.
Proof.
  unfold slice_to.
  destruct (Z.leb_spec 0 (Z.of_nat n)); [now rewrite Nat2Z.id | lia].
Qed.

Lemma tail_pos {A} (n : nat) (l : list A) :
  0 < n -> tail (Z.of_nat n) l = skipn (length l - n) l.
Proof.
  intros Hn. unfold tail, slice_from.
  destruct (Z.eqb_spec (Z.of_nat n) 0); [lia|].
  destruct (Z.leb_spec 0 (- Z.of_nat n)); [lia|].
  now rewrite Z.opp_involutive, Nat2Z.id.
Qed.

(** A loop that appends one value per element builds the [map]. *)
Lemma fold_append {A B} (f : A -> B) (l : list A) (acc : list B) :
  fold_left (fun results x => results ++ [f x]) l acc = acc ++ map f l.
Proof.
  revert acc; induction l as [|x l IH]; intros acc; simpl.
  - now rewrite app_nil_r.
  - now rewrite IH, <- app_assoc.
Qed.

(** ** Trend Detector *)

Module TrendFacts.
Import Trend.

Lemma counter_add_keys k delta c :
  keys (counter_add k delta c) = if existsb (fun k' => str_eqb k' k) (keys c)
                                 then keys c else keys c ++ [k].
Proof.
  induction c as [|[k' v] c IH]; simpl; [reflexivity|].
  destruct (str_eqb k' k); simpl; [reflexivity|].
  rewrite IH. unfold keys. now destruct (existsb _ (map fst c)).
Qed.

Lemma counter_add_NoDup k delta c :
  NoDup (keys c) -> NoDup (keys (counter_add k delta c)).
Proof.
  intros Hc. rewrite counter_add_keys.
  destruct (existsb _ (keys c)) eqn:E; [assumption|].
  apply Permutation_NoDup with (l := k :: keys c).
  - apply Permutation_cons_append.
  - constructor; [|assumption].
    intros Hin. apply not_true_iff_false in E. apply E.
    apply existsb_exists. exists k. split; [assumption | apply str_eqb_refl].
Qed.

Lemma count_NoDup items : NoDup (keys (count items)).
Proof.
  unfold count.
  assert (G : forall c, NoDup (keys c) ->
              NoDup (keys (fold_left (fun c k => counter_add k 1 c) items c))).
  { induction items as [|k items IH]; intros c Hc; simpl; [assumption|].
    apply IH, counter_add_NoDup, Hc. }
  apply G. constructor.
Qed.

Lemma subtract_NoDup self other :
  NoDup (keys self) -> NoDup (keys (subtract self other)).
Proof.
  unfold subtract. revert self.
  induction other as [|[k v] other IH]; intros self Hs; simpl; [assumption|].
  apply IH, counter_add_NoDup, Hs.
Qed.

Lemma insert_desc_perm x l : Permutation (x :: l) (insert_desc x l).
Proof.
  induction l as [|y l IH]; simpl; [reflexivity|].
  destruct (snd y <=? snd x)%Z; [reflexivity|].
  rewrite perm_swap. now apply perm_skip.
Qed.

Lemma most_common_perm c : Permutation c (most_common c).
Proof.
  induction c as [|x c IH]; simpl; [constructor|].
  rewrite <- insert_desc_perm. now apply perm_skip.
Qed.

Lemma insert_desc_sorted x l :
  StronglySorted more_common l -> StronglySorted more_common (insert_desc x l).
Proof.
  induction 1 as [|y l Hs IH Hy]; simpl.
  - repeat constructor.
  - destruct (Z.leb_spec (snd y) (snd x)) as [Hle|Hgt].
    + constructor; [constructor; assumption|].
      constructor; [exact Hle|].
      eapply Forall_impl; [|exact Hy].
      unfold more_common; intros; lia.
    + constructor; [assumption|].
      eapply Permutation_Forall; [apply insert_desc_perm|].
      constructor; [unfold more_common; lia | assumption].
Qed.

Lemma most_common_sorted c : StronglySorted more_common (most_common c).
Proof.
  induction c as [|x c IH]; simpl; [constructor | now apply insert_desc_sorted].
Qed.

Lemma difference_NoDup articles : NoDup (keys (difference articles)).
Proof.
  unfold difference, keys.
  eapply Permutation_NoDup.
  - apply Permutation_map, most_common_perm.
  - apply subtract_NoDup, count_NoDup.
Qed.

End TrendFacts.

Module TrendSpec.
Import Trend TrendFacts.

Lemma first_change_from_spec rest : forall i prev,
  match first_change_from i prev rest with
  | Some j => exists same c tl,
      rest = same ++ c :: tl /\ j = i + length same /\
      Forall (eq prev) same /\ c <> prev
  | None => Forall (eq prev) rest
  end.
Proof.
  induction rest as [|y rest IH]; intros i prev; simpl; [constructor|].
  destruct (Nat.eqb_spec y prev) as [->|Hne].
  - specialize (IH (S i) prev).
    destruct (first_change_from (S i) prev rest) as [j|].
    + destruct IH as (same & c & tl & -> & -> & Hall & Hc).
      exists (prev :: same), c, tl. simpl. repeat split; auto; lia.
    + constructor; auto.
  - exists [], y, rest. simpl. repeat split; auto; lia.
Qed.

Lemma nth_constant (a : nat) same k :
  Forall (eq a) same -> k < length same -> nth k same 0 = a.
Proof.
  intros Hall. revert k.
  induction Hall as [|x same Hx _ IH]; intros k Hk; simpl in *; [lia|].
  destruct k; [auto | apply IH; lia].
Qed.

Lemma first_change_some y_pred i :
  first_change y_pred = Some i -> first_label_change y_pred i.
Proof.
  destruct y_pred as [|a rest]; [discriminate|]. simpl.
  pose proof (first_change_from_spec rest 1 a) as Hs. intros E.
  rewrite E in Hs. destruct Hs as (same & c & tl & -> & -> & Hall & Hc).
  assert (Hpre : forall k, k <= length same ->
                           nth k (a :: same ++ c :: tl) 0 = a).
  { intros k Hk. destruct k; [reflexivity|]. simpl.
    rewrite app_nth1 by lia. apply nth_constant; [assumption | lia]. }
  repeat split.
  - lia.
  - simpl. rewrite length_app. simpl. lia.
  - replace (1 + length same - 1) with (length same) by lia.
    rewrite (Hpre (length same)) by lia.
    simpl. rewrite app_nth2 by lia. rewrite Nat.sub_diag. simpl. exact Hc.
  - intros k Hk. rewrite !Hpre by lia. reflexivity.
Qed.

Lemma first_change_none y_pred :
  first_change y_pred = None -> no_label_change y_pred.
Proof.
  destruct y_pred as [|a rest]; intros E k Hk; simpl in Hk; [lia|].
  simpl in E. pose proof (first_change_from_spec rest 1 a) as Hs.
  rewrite E in Hs.
  assert (Hall : forall j, j < S (length rest) -> nth j (a :: rest) 0 = a).
  { intros [|j] Hj; [reflexivity|]. simpl. apply nth_constant; [assumption|lia]. }
  rewrite !Hall by lia. reflexivity.
Qed.

End TrendSpec.

Module TrendTheorems.
Import Trend TrendFacts TrendSpec.

Lemma half_point_nat articles :
  half_point articles = Z.of_nat (length articles / 2).
Proof. unfold half_point. now rewrite Nat2Z.inj_div. Qed.

Lemma new_length_nat articles :
  (half_point articles - half_point articles mod 2)%Z =
  Z.of_nat (length articles / 2 - (length articles / 2) mod 2).
Proof.
  rewrite half_point_nat.
  set (h := length articles / 2).
  assert (h mod 2 <= h) by (apply Nat.Div0.mod_le).
  rewrite Nat2Z.inj_sub by assumption.
  now rewrite Nat2Z.inj_mod.
Qed.

(** C5.  For a batch of [n >= 20] articles, the old half is the first
    [n / 2] articles, and the new half is the last
    [n / 2 - (n / 2) mod 2] articles, an even number of them. *)
Theorem halves_of_batch (articles : list (list str)) :
  20 <= length articles ->
  let n := length articles in
  let h := n / 2 in
  old_articles articles = firstn h articles /\
  new_articles articles = skipn (n - (h - h mod 2)) articles /\
  length (new_articles articles) = h - h mod 2 /\
  Nat.even (length (new_articles articles)) = true.
Proof.
  intros Hn n h.
  assert (Hh : 10 <= h) by (apply (Nat.Div0.div_le_mono 20 n 2); lia).
  assert (Hhn : h <= n) by (apply Nat.Div0.div_le_upper_bound; lia).
  assert (Hm : h mod 2 < 2) by (apply Nat.mod_upper_bound; lia).
  assert (Hnew : new_articles articles = skipn (n - (h - h mod 2)) articles).
  { unfold new_articles. rewrite new_length_nat. apply tail_pos. fold n h. lia. }
  repeat split.
  - unfold old_articles, head. rewrite half_point_nat. apply slice_to_nonneg.
  - exact Hnew.
  - rewrite Hnew, length_skipn. fold n. lia.
  - rewrite Hnew, length_skipn. fold n.
    replace (n - (n - (h - h mod 2))) with (h - h mod 2) by lia.
    rewrite Nat.even_spec.
    exists (h / 2). pose proof (Nat.div_mod_eq h 2). lia.
Qed.

(** The statement at batches of 20 and of 21 articles. *)
Lemma halves_of_batch_witness :
  (old_articles (Sample.batch 10) = firstn 10 (Sample.batch 10) /\
   length (new_articles (Sample.batch 10)) = 10) /\
  (old_articles (Sample.batch 11) = firstn 10 (Sample.batch 11) /\
   length (new_articles (Sample.batch 11)) = 10).
Proof.
  split.
  - destruct (halves_of_batch (Sample.batch 10)) as (Ho & _ & Hl & _).
    + simpl. lia.
    + split; [exact Ho | exact Hl].
  - destruct (halves_of_batch (Sample.batch 11)) as (Ho & _ & Hl & _).
    + simpl. lia.
    + split; [exact Ho | exact Hl].
Defined.

(** C3.  A batch of fewer than 20 articles raises the validation failure,
    a [ValueError] with the message [too_short]; a batch of exactly 20
    does not: it returns the trending set whenever the clustering
    returns, and only a failure of the clustering can stop it. *)
Theorem validation_of_batch `{K : KMeans} (articles : list (list str)) :
  (length articles < 20 ->
   generate_trend_wordcloud articles = Raise (ValueError too_short)) /\
  (length articles = 20 ->
   generate_trend_wordcloud articles <> Raise (ValueError too_short) /\
   (forall y_pred,
       fit_predict (map snd (difference articles)) = Some y_pred ->
       generate_trend_wordcloud articles =
       Ok (trending_keywords (difference articles) y_pred)) /\
   (fit_predict (map snd (difference articles)) = None ->
    generate_trend_wordcloud articles =
    Raise (LibraryError "KMeans.fit_predict"))) /\
  too_short <> ""%string.
Proof.
  unfold generate_trend_wordcloud.
  repeat split.
  - intros Hlt. apply Nat.ltb_lt in Hlt. now rewrite Hlt.
  - destruct (Nat.ltb_spec (length articles) 20); [lia|].
    destruct (fit_predict _); simpl; discriminate.
  - intros y_pred Hy.
    destruct (Nat.ltb_spec (length articles) 20); [lia|].
    now rewrite Hy.
  - intros Hy.
    destruct (Nat.ltb_spec (length articles) 20); [lia|].
    now rewrite Hy.
  - discriminate.
Qed.

(** Batches of 19 and of 20 articles. *)
Lemma validation_of_batch_witness :
  generate_trend_wordcloud (K := Sample.kmeans) (Sample.batch 9) =
    Raise (ValueError too_short) /\
  generate_trend_wordcloud (K := Sample.kmeans) (Sample.batch 10) <>
    Raise (ValueError too_short).
Proof.
  split.
  - apply (validation_of_batch (K := Sample.kmeans) (Sample.batch 9)).
    simpl. lia.
  - apply (validation_of_batch (K := Sample.kmeans) (Sample.batch 10)).
    reflexivity.
Defined.

Lemma disjoint_halves {A} (l1 l2 : list A) :
  NoDup (l1 ++ l2) -> forall x, In x l2 -> ~ In x l1.
Proof.
  induction l1 as [|a l1 IH]; simpl; intros Hnd x H2 H1; [assumption|].
  inversion Hnd as [|? ? Hnot Hnd']; subst.
  destruct H1 as [->|H1].
  - apply Hnot, in_or_app. now right.
  - exact (IH Hnd' x H2 H1).
Qed.

(** C4.  When the detector returns a trending set, the frequency diff is
    sorted descending and splits as the trending set followed by a
    non-empty rest.  The split is at the first position whose cluster
    label differs from the label before it; when the labels never change
    the trending set is empty.  No term of the rest is in the trending
    set. *)
Theorem trending_is_strict_prefix `{L : KMeansLaws}
    (articles : list (list str)) (trending : Counter) :
  generate_trend_wordcloud articles = Ok trending ->
  let diff := difference articles in
  StronglySorted more_common diff /\
  exists y_pred rest,
    fit_predict (map snd diff) = Some y_pred /\
    diff = trending ++ rest /\
    rest <> [] /\
    (first_label_change y_pred (length trending) \/
     no_label_change y_pred /\ trending = []) /\
    (forall term, In term (keys rest) -> ~ In term (keys trending)).
Proof.
  intros Hrun diff. split; [apply most_common_sorted|].
  unfold generate_trend_wordcloud in Hrun. fold diff in Hrun.
  destruct (length articles <? 20); [discriminate|].
  destruct (fit_predict (map snd diff)) as [y_pred|] eqn:Hy; [|discriminate].
  simpl in Hrun. injection Hrun as <-.
  pose proof (labels_length _ Hy) as Hlen. rewrite length_map in Hlen.
  pose proof (enough_samples _ Hy) as Hmin. rewrite length_map in Hmin.
  assert (Hsplit : forall rest, diff = trending_keywords diff y_pred ++ rest ->
            forall term, In term (keys rest) ->
                         ~ In term (keys (trending_keywords diff y_pred))).
  { intros rest Hd. apply disjoint_halves. unfold keys.
    rewrite <- map_app, <- Hd. apply difference_NoDup. }
  unfold trending_keywords in *.
  destruct (first_change y_pred) as [i|] eqn:Hi.
  - pose proof (first_change_some _ Hi) as Hfirst.
    assert (Hbound : i < length diff) by (destruct Hfirst; lia).
    exists y_pred, (skipn i diff).
    assert (Hd : diff = firstn i diff ++ skipn i diff)
      by (symmetry; apply firstn_skipn).
    repeat split; try assumption.
    + intros Hnil. apply (f_equal (@length _)) in Hnil.
      rewrite length_skipn in Hnil. simpl in Hnil. lia.
    + left. rewrite length_firstn, Nat.min_l by lia. exact Hfirst.
    + apply Hsplit, Hd.
  - exists y_pred, diff. repeat split; try reflexivity; try assumption.
    + intros Hnil. rewrite Hnil in Hmin. simpl in Hmin. lia.
    + right. split; [apply first_change_none, Hi | reflexivity].
    + intros term _ [].
Qed.

Lemma sample_kmeans_laws : KMeansLaws (K := Sample.kmeans).
Proof.
  split; intros values y; simpl;
    destruct (Nat.ltb_spec (length values) 3); try discriminate.
  - intros [= <-]. unfold Sample.thirds. apply length_map.
  - intros _. assumption.
Qed.

(** A batch of 20 articles: the new term leads the diff and is the whole
    trending set. *)
Lemma trending_is_strict_prefix_witness :
  let diff := difference (Sample.batch 10) in
  let trending := [(Sample.inflyatsiya, 10%Z)] in
  generate_trend_wordcloud (K := Sample.kmeans) (Sample.batch 10) = Ok trending /\
  exists y_pred rest,
    fit_predict (KMeans := Sample.kmeans) (map snd diff) = Some y_pred /\
    diff = trending ++ rest /\
    rest <> [] /\
    (first_label_change y_pred (length trending) \/
     no_label_change y_pred /\ trending = []).
Proof.
  intros diff trending.
  assert (Hrun : generate_trend_wordcloud (K := Sample.kmeans) (Sample.batch 10)
                 = Ok trending) by (vm_compute; reflexivity).
  split; [exact Hrun|].
  destruct (trending_is_strict_prefix (L := sample_kmeans_laws) _ Hrun)
    as (_ & y_pred & rest & H1 & H2 & H3 & H4 & _).
  exists y_pred, rest. repeat split; assumption.
Defined.

End TrendTheorems.

(** ** Relevance Scorer *)

Module RelevanceTheorems.
Import Relevance.

Lemma insert_asc_perm x l : Permutation (x :: l) (insert_asc x l).
Proof.
  induction l as [|y l IH]; simpl; [reflexivity|].
  destruct (Qle_bool x y); [reflexivity|].
  rewrite perm_swap. now apply perm_skip.
Qed.

Lemma sorted_perm data : Permutation data (sorted data).
Proof.
  induction data as [|x data IH]; simpl; [constructor|].
  rewrite <- insert_asc_perm. now apply perm_skip.
Qed.

Lemma insert_asc_sorted x l :
  StronglySorted Qle l -> StronglySorted Qle (insert_asc x l).
Proof.
  induction 1 as [|y l Hs IH Hy]; simpl.
  - repeat constructor.
  - destruct (Qle_bool x y) eqn:E.
    + apply Qle_bool_iff in E.
      constructor; [constructor; assumption|].
      constructor; [exact E|].
      eapply Forall_impl; [|exact Hy].
      intros z Hz. now apply Qle_trans with y.
    + assert (Hyx : (y <= x)%Q).
      { apply Qlt_le_weak, Qnot_le_lt. intros Hle.
        apply Qle_bool_iff in Hle. congruence. }
      constructor; [assumption|].
      eapply Permutation_Forall; [apply insert_asc_perm|].
      constructor; assumption.
Qed.

Lemma sorted_sorted data : StronglySorted Qle (sorted data).
Proof.
  induction data as [|x data IH]; simpl; [constructor | now apply insert_asc_sorted].
Qed.

Lemma sorted_length data : length (sorted data) = length data.
Proof. symmetry. apply Permutation_length, sorted_perm. Qed.

Lemma nth_error_nth_lt {A} (l : list A) i d :
  i < length l -> nth_error l i = Some (nth i l d).
Proof.
  revert i; induction l as [|x l IH]; intros [|i] Hi; simpl in *;
    try lia; [reflexivity | apply IH; lia].
Qed.

(** [statistics.median] returns the median of any non-empty data. *)
Lemma median_spec data :
  data <> [] -> exists m, median data = Ok m /\ is_median data m.
Proof.
  intros Hne. unfold median.
  assert (Hpos : 0 < length (sorted data)).
  { rewrite sorted_length. destruct data; [congruence | simpl; lia]. }
  set (s := sorted data) in *. set (n := length s) in *.
  destruct (Nat.eqb_spec n 0) as [|_]; [lia|].
  assert (Hhalf : n / 2 < n) by (apply Nat.div_lt; lia).
  destruct (Nat.eqb_spec (n mod 2) 1) as [Hodd|Heven].
  - eexists; split; [reflexivity|].
    exists s. split; [apply sorted_perm|]. split; [apply sorted_sorted|].
    fold n. split; [intros _; now apply nth_error_nth_lt | intros; lia].
  - eexists; split; [reflexivity|].
    exists s. split; [apply sorted_perm|]. split; [apply sorted_sorted|].
    fold n. split; [intros; lia|]. intros _.
    exists (nth (n / 2 - 1) s 0%Q), (nth (n / 2) s 0%Q).
    repeat split; try apply nth_error_nth_lt; try reflexivity; lia.
Qed.

Lemma median_raises_iff data :
  (exists e, median data = Raise e) <-> data = [].
Proof.
  split.
  - intros [e He]. destruct data as [|x data]; [reflexivity|].
    destruct (@median_spec (x :: data)) as (m & Hm & _); congruence.
  - intros ->. eexists. reflexivity.
Qed.

Section WithModel.
Context `{M : SpacyModel}.

(** The list the loop builds is the similarity of every pair of the cross
    product, terms outermost. *)
Lemma eval_article_unfold terms role_keywords :
  eval_article terms role_keywords = median (pairwise terms role_keywords).
Proof.
  unfold eval_article, pairwise. rewrite fold_append. simpl. f_equal.
  unfold product. induction terms as [|t terms IH]; simpl; [reflexivity|].
  rewrite map_app, IH. f_equal.
  rewrite !map_map. reflexivity.
Qed.

Lemma pairwise_length terms role_keywords :
  length (pairwise terms role_keywords) =
  length terms * length role_keywords.
Proof.
  unfold pairwise. induction terms as [|t terms IH]; simpl; [reflexivity|].
  now rewrite length_app, length_map, IH.
Qed.

Lemma pairwise_nil terms role_keywords :
  pairwise terms role_keywords = [] <-> terms = [] \/ role_keywords = [].
Proof.
  rewrite <- !length_zero_iff_nil, pairwise_length. lia.
Qed.

(** C2.  For non-empty terms and keywords the scorer returns the median of
    the [|terms| * |keywords|] similarities of the pairs of the cross
    product. *)
Theorem eval_article_is_median (terms role_keywords : list str) :
  terms <> [] -> role_keywords <> [] ->
  length (pairwise terms role_keywords) = length terms * length role_keywords /\
  (forall t k, In t terms -> In k role_keywords ->
               In (similarity (NLP t) (NLP k)) (pairwise terms role_keywords)) /\
  exists m, eval_article terms role_keywords = Ok m /\
            is_median (pairwise terms role_keywords) m.
Proof.
  intros Ht Hk. split; [apply pairwise_length|]. split.
  - intros t k Hint Hink. unfold pairwise. apply in_flat_map.
    exists t. split; [assumption|].
    apply in_map_iff. exists k. split; [reflexivity | assumption].
  - rewrite eval_article_unfold. apply median_spec.
    rewrite pairwise_nil. tauto.
Qed.

(** C6.  The scorer raises exactly when the terms or the keywords are
    empty, and returns a value exactly when both are non-empty. *)
Theorem eval_article_raises_iff_empty (terms role_keywords : list str) :
  ((exists e, eval_article terms role_keywords = Raise e) <->
   terms = [] \/ role_keywords = []) /\
  ((exists v, eval_article terms role_keywords = Ok v) <->
   terms <> [] /\ role_keywords <> []).
Proof.
  rewrite eval_article_unfold. split.
  - rewrite median_raises_iff. apply pairwise_nil.
  - split.
    + intros [v Hv].
      assert (Hne : pairwise terms role_keywords <> []).
      { intros Hnil. destruct (proj2 (median_raises_iff _) Hnil). congruence. }
      rewrite pairwise_nil in Hne. tauto.
    + intros [Ht Hk].
      destruct (@median_spec (pairwise terms role_keywords)) as (m & Hm & _).
      * rewrite pairwise_nil. tauto.
      * now exists m.
Qed.

End WithModel.

(** The specification's scenario: two terms against two keywords. *)
Lemma eval_article_is_median_witness :
  exists m,
    eval_article (M := Sample.spacy)
      [Sample.bank; Sample.kredit] [Sample.finansy; Sample.dengi] = Ok m /\
    is_median (pairwise (M := Sample.spacy)
                 [Sample.bank; Sample.kredit] [Sample.finansy; Sample.dengi]) m.
Proof.
  apply (@eval_article_is_median Sample.spacy
           [Sample.bank; Sample.kredit] [Sample.finansy; Sample.dengi]);
    discriminate.
Defined.

End RelevanceTheorems.

(** ** Extractive Summarizer *)

Module SummarizerTheorems.
Import Summarizer.

Lemma slice_to_incl {A} (n : Z) (l : list A) x : In x (slice_to n l) -> In x l.
Proof.
  assert (G : forall k, In x (firstn k l) -> In x l).
  { intros k Hin. rewrite <- (firstn_skipn k l). apply in_or_app. now left. }
  unfold slice_to. destruct (0 <=? n)%Z; apply G.
Qed.

Lemma sample_sumy_extractive : Extractive (S := Sample.sumy).
Proof. intros document n s. simpl. apply slice_to_incl. Qed.

Lemma sample_sumy_count : SelectsCount (S := Sample.sumy).
Proof.
  intros document n Hn. simpl. unfold slice_to.
  destruct (Z.leb_spec 0 n); [apply length_firstn | lia].
Qed.


Section WithSumy.
Context `{S : Sumy} {E : Extractive} {C : SelectsCount}.


End WithSumy.


End SummarizerTheorems.

(** ** Term Salience Extractor *)

Module SalienceTheorems.
Import Salience.

Lemma firstn_NoDup {A} k (l : list A) : NoDup l -> NoDup (firstn k l).
Proof.
  intros Hl. rewrite <- (firstn_skipn k l) in Hl.
  exact (NoDup_app_remove_r _ _ Hl).
Qed.

Lemma firstn_StronglySorted {A} (R : A -> A -> Prop) k l :
  StronglySorted R l -> StronglySorted R (firstn k l).
Proof.
  intros Hl. revert k.
  induction Hl as [|x l Hs IH Hx]; intros [|k]; simpl; try constructor.
  - apply IH.
  - rewrite Forall_forall in *. intros y Hy. apply Hx.
    rewrite <- (firstn_skipn k l). apply in_or_app. now left.
Qed.

Lemma slice_to_firstn {A} (n : Z) (l : list A) :
  exists k, slice_to n l = firstn k l /\
            ((0 <= n)%Z -> k = Z.to_nat n).
Proof.
  unfold slice_to. destruct (Z.leb_spec 0 n).
  - now exists (Z.to_nat n).
  - exists (length l - Z.to_nat (- n)). split; [reflexivity | lia].
Qed.

(** In rows with distinct terms, a row holds the weight of its term. *)
Lemma weight_in_row rows t w :
  NoDup (map fst rows) -> In (t, w) rows -> weight_in rows t = w.
Proof.
  induction rows as [|[t' w'] rows IH]; simpl; intros Hnd Hin; [contradiction|].
  inversion Hnd as [|? ? Hnot Hnd']; subst.
  destruct Hin as [[= -> ->]|Hin].
  - now rewrite str_eqb_refl.
  - destruct (str_eqb t' t) eqn:E.
    + apply str_eqb_eq in E. subst t'. exfalso. apply Hnot.
      apply in_map_iff. now exists (t, w).
    + now apply IH.
Qed.

Lemma combine_fst {A B} (l1 : list A) (l2 : list B) :
  length l2 = length l1 -> map fst (combine l1 l2) = l1.
Proof.
  revert l2; induction l1 as [|a l1 IH]; intros [|b l2] Hlen; simpl in *;
    try discriminate; [reflexivity|].
  f_equal. apply IH. lia.
Qed.

(** Sorted rows, read as terms ordered by their weight. *)
Lemma sorted_terms (weigh : str -> Q) rows :
  (forall r, In r rows -> weigh (fst r) = snd r) ->
  StronglySorted descending rows ->
  StronglySorted (fun a b => (weigh b <= weigh a)%Q) (map fst rows).
Proof.
  intros Hw Hs.
  induction Hs as [|r rows Hs IH Hr]; simpl; constructor.
  - apply IH. intros r' Hr'. apply Hw. now right.
  - rewrite Forall_forall in *. intros t Ht.
    apply in_map_iff in Ht. destruct Ht as (r' & <- & Hr').
    rewrite (Hw r) by now left. rewrite (Hw r') by now right.
    exact (Hr r' Hr').
Qed.

Lemma distinct_In l x : In x (distinct l) <-> In x l.
Proof.
  induction l as [|y l IH]; simpl; [tauto|].
  rewrite filter_In, IH, negb_true_iff, str_eqb_neq.
  destruct (list_eq_dec N.eq_dec y x); intuition congruence.
Qed.

Lemma distinct_NoDup l : NoDup (distinct l).
Proof.
  induction l as [|y l IH]; simpl; constructor.
  - intros Hin. apply filter_In in Hin. destruct Hin as [_ Hne].
    now rewrite str_eqb_refl in Hne.
  - now apply NoDup_filter.
Qed.

Lemma insert_name_perm x l : Permutation (x :: l) (Sample.insert_name x l).
Proof.
  induction l as [|y l IH]; simpl; [reflexivity|].
  destruct (Sample.str_leb x y); [reflexivity|].
  rewrite perm_swap. now apply perm_skip.
Qed.

Lemma sort_names_perm l : Permutation l (Sample.sort_names l).
Proof.
  induction l as [|x l IH]; simpl; [constructor|].
  rewrite <- insert_name_perm. now apply perm_skip.
Qed.

Lemma sample_fit article m :
  fit_transform (Vectorizer := Sample.vectorizer) article = Some m ->
  feature_names m =
    Sample.sort_names (distinct (flat_map Sample.analyze article)) /\
  row0 m = map (Sample.frequency (hd [] article)) (feature_names m).
Proof.
  simpl. destruct (Sample.sort_names _) eqn:E; [discriminate|].
  intros [= <-]. simpl. auto.
Qed.

Lemma sample_vectorizer_laws : VectorizerLaws (V := Sample.vectorizer).
Proof.
  split; intros article m Hfit; destruct (sample_fit _ Hfit) as [Hn Hr].
  - now rewrite Hr, length_map.
  - rewrite Hn. eapply Permutation_NoDup; [apply sort_names_perm|].
    apply distinct_NoDup.
Qed.

Lemma sample_vocabulary_law :
  VocabularyLaw (V := Sample.vectorizer) (A := Sample.analyzer).
Proof.
  intros article m Hfit t. destruct (sample_fit _ Hfit) as [Hn _].
  rewrite Hn. unfold tokens_of. simpl. split.
  - intros Hin. apply (proj1 (distinct_In _ _)).
    exact (Permutation_in _ (Permutation_sym (sort_names_perm _)) Hin).
  - intros Hin. apply (proj2 (distinct_In _ _)) in Hin.
    exact (Permutation_in _ (sort_names_perm _) Hin).
Qed.

(** C7, as stated, fails in three ways.  For a negative [N], [head(-1)]
    keeps all rows but the last, and no length is at most [-1].  For an
    entry that the analyser splits, the output holds two terms where the
    article has one, and neither is a term of the article.  And an entry
    of a single letter is no token: of the two distinct terms of the last
    article only one comes back, although [N] is larger. *)
Lemma tf_idf_nitems_counterexamples :
  (tf_idf_nitems (V := Sample.vectorizer) (S := Sample.sorter)
     [Sample.bank; Sample.kredit; Sample.bank] (-1) = Ok [Sample.bank] /\
   ~ (Z.of_nat (length [Sample.bank]) <= -1)%Z) /\
  (exists out,
     tf_idf_nitems (V := Sample.vectorizer) (S := Sample.sorter)
       [Sample.kto_to] 10 = Ok out /\
     length out = 2 /\ length (distinct [Sample.kto_to]) = 1 /\
     In Sample.kto out /\ ~ In Sample.kto [Sample.kto_to]) /\
  (exists out,
     tf_idf_nitems (V := Sample.vectorizer) (S := Sample.sorter)
       [Sample.ya; Sample.bank] 10 = Ok out /\
     (Z.of_nat (length (distinct [Sample.ya; Sample.bank])) < 10)%Z /\
     In Sample.ya [Sample.ya; Sample.bank] /\ ~ In Sample.ya out).
Proof.
  split; [split; [vm_compute; reflexivity | simpl; lia]|].
  split.
  - eexists. split; [vm_compute; reflexivity|].
    repeat split; try (vm_compute; reflexivity).
    + left. vm_compute. reflexivity.
    + intros [H|[]]. vm_compute in H. discriminate H.
  - eexists. split; [vm_compute; reflexivity|].
    repeat split; try (vm_compute; reflexivity).
    + now left.
    + intros [H|[]]. vm_compute in H. discriminate H.
Qed.

Section WithLibraries.
Context `{V : Vectorizer} `{A : Analyzer} `{S : Sorter}.
Context {VL : VectorizerLaws} {TL : VocabularyLaw} {SL : SorterLaws}.

(** The features are the distinct tokens of the entries. *)
Lemma features_are_tokens article m :
  fit_transform article = Some m ->
  Permutation (feature_names m) (distinct (tokens_of article)).
Proof.
  intros Hfit. apply NoDup_Permutation.
  - exact (features_distinct _ Hfit).
  - apply distinct_NoDup.
  - intros t. rewrite distinct_In. exact (vocabulary_tokens _ Hfit t).
Qed.

Lemma plain_tokens article :
  (forall entry, In entry article -> build_analyzer entry = [entry]) ->
  tokens_of article = article.
Proof.
  unfold tokens_of. induction article as [|x article IH]; simpl;
    intros Hplain; [reflexivity|].
  rewrite (Hplain x) by now left. simpl. f_equal.
  apply IH. intros; apply Hplain; now right.
Qed.

(** C7, amended.  For [0 <= N] the extractor returns at most [N] terms
    and at most as many as the vocabulary has, the vocabulary being the
    distinct tokens that the analyser reads in the entries of the
    article; the terms are distinct tokens of that vocabulary, their
    weights never increase along the list, and a vocabulary of fewer than
    [N] tokens is returned whole.  When the analyser reads every entry as
    the one token it is, the vocabulary is the set of distinct terms of
    the article: the output has at most that many terms, each a term of
    the article, and an article of fewer than [N] distinct terms has all
    of them returned. *)
Theorem tf_idf_nitems_top (article : list str) (n : Z) (out : list str) :
  (0 <= n)%Z ->
  tf_idf_nitems article n = Ok out ->
  let vocabulary := distinct (tokens_of article) in
  exists m,
    fit_transform article = Some m /\
    Permutation (feature_names m) vocabulary /\
    (Z.of_nat (length out) <= n)%Z /\
    length out <= length vocabulary /\
    incl out vocabulary /\
    (forall t, In t out ->
       exists entry, In entry article /\ In t (build_analyzer entry)) /\
    NoDup out /\
    StronglySorted (fun a b => (weight m b <= weight m a)%Q) out /\
    ((Z.of_nat (length vocabulary) < n)%Z -> Permutation vocabulary out) /\
    ((forall entry, In entry article -> build_analyzer entry = [entry]) ->
     length out <= length (distinct article) /\
     incl out article /\
     ((Z.of_nat (length (distinct article)) < n)%Z ->
      forall t, In t article -> In t out)).
Proof.
  intros Hn Hrun vocabulary. unfold tf_idf_nitems in Hrun.
  destruct (fit_transform article) as [m|] eqn:Hfit; [|discriminate].
  simpl in Hrun. injection Hrun as <-.
  exists m. split; [reflexivity|].
  pose proof (row_width _ Hfit) as Hwidth.
  pose proof (features_distinct _ Hfit) as Hdistinct.
  pose proof (features_are_tokens _ Hfit) as Hvoc. fold vocabulary in Hvoc.
  set (rows := combine (feature_names m) (row0 m)) in *.
  assert (Hfst : map fst rows = feature_names m) by now apply combine_fst.
  pose proof (sort_perm rows) as Hperm.
  pose proof (sort_desc rows) as Hdesc.
  assert (Hterms : Permutation (feature_names m) (map fst (sort_values rows))).
  { rewrite <- Hfst. now apply Permutation_map. }
  unfold head.
  destruct (slice_to_firstn n (sort_values rows)) as (k & -> & Hk).
  specialize (Hk Hn). rewrite <- firstn_map.
  set (ranked := map fst (sort_values rows)) in *.
  assert (Hlen : length (firstn k ranked) <= length vocabulary).
  { rewrite length_firstn, <- (Permutation_length Hvoc),
      (Permutation_length Hterms). lia. }
  assert (Hincl : incl (firstn k ranked) vocabulary).
  { intros t Ht. eapply Permutation_in; [exact Hvoc|].
    eapply Permutation_in; [symmetry; exact Hterms|].
    rewrite <- (firstn_skipn k ranked). apply in_or_app. now left. }
  assert (Hall : (Z.of_nat (length vocabulary) < n)%Z ->
                 Permutation vocabulary (firstn k ranked)).
  { intros Hfew. rewrite firstn_all2.
    - rewrite <- Hvoc. exact Hterms.
    - rewrite <- (Permutation_length Hterms), (Permutation_length Hvoc). lia. }
  split; [exact Hvoc|].
  split; [rewrite length_firstn; lia|].
  split; [exact Hlen|].
  split; [exact Hincl|].
  split.
  { intros t Ht. apply Hincl in Ht. unfold vocabulary in Ht.
    apply (proj1 (distinct_In _ _)) in Ht. unfold tokens_of in Ht.
    apply in_flat_map in Ht. exact Ht. }
  split.
  { apply firstn_NoDup. eapply Permutation_NoDup; eassumption. }
  split.
  { apply firstn_StronglySorted. apply sorted_terms; [|assumption].
    intros [t w] Hr. simpl. apply weight_in_row.
    - fold rows. now rewrite Hfst.
    - fold rows. eapply Permutation_in; [symmetry; exact Hperm | exact Hr]. }
  split; [exact Hall|].
  intros Hplain. unfold vocabulary in *.
  rewrite (plain_tokens _ Hplain) in *.
  split; [exact Hlen|]. split.
  - intros t Ht. apply Hincl in Ht. exact (proj1 (distinct_In _ _) Ht).
  - intros Hfew t Ht. eapply Permutation_in; [exact (Hall Hfew)|].
    exact (proj2 (distinct_In _ _) Ht).
Qed.

End WithLibraries.

Lemma insert_row_perm x l : Permutation (x :: l) (Sample.insert_row x l).
Proof.
  induction l as [|y l IH]; simpl; [reflexivity|].
  destruct (Qle_bool (snd y) (snd x)); [reflexivity|].
  rewrite perm_swap. now apply perm_skip.
Qed.

Lemma insert_row_sorted x l :
  StronglySorted descending l -> StronglySorted descending (Sample.insert_row x l).
Proof.
  induction 1 as [|y l Hs IH Hy]; simpl.
  - repeat constructor.
  - destruct (Qle_bool (snd y) (snd x)) eqn:E.
    + apply Qle_bool_iff in E.
      constructor; [constructor; assumption|].
      constructor; [exact E|].
      eapply Forall_impl; [|exact Hy].
      unfold descending. intros z Hz. now apply Qle_trans with (snd y).
    + assert (Hxy : (snd x <= snd y)%Q).
      { apply Qlt_le_weak, Qnot_le_lt. intros Hle.
        apply Qle_bool_iff in Hle. congruence. }
      constructor; [assumption|].
      eapply Permutation_Forall; [apply insert_row_perm|].
      constructor; assumption.
Qed.

Lemma sample_sorter_laws : SorterLaws (S := Sample.sorter).
Proof.
  split; intros rows; simpl.
  - induction rows as [|x rows IH]; simpl; [constructor|].
    rewrite <- insert_row_perm. now apply perm_skip.
  - induction rows as [|x rows IH]; simpl;
      [constructor | now apply insert_row_sorted].
Qed.

(** Three entries, two distinct terms, each a token as it is, and room
    for ten: both terms come back. *)
Lemma tf_idf_nitems_top_witness :
  let article := [Sample.bank; Sample.kredit; Sample.bank] in
  let out := [Sample.bank; Sample.kredit] in
  tf_idf_nitems (V := Sample.vectorizer) (S := Sample.sorter) article 10
    = Ok out /\
  length out <= length (distinct article) /\
  incl out article /\
  (forall t, In t article -> In t out).
Proof.
  intros article out.
  assert (Hrun : tf_idf_nitems (V := Sample.vectorizer) (S := Sample.sorter)
                   article 10 = Ok out) by (vm_compute; reflexivity).
  split; [exact Hrun|].
  destruct (@tf_idf_nitems_top Sample.vectorizer Sample.analyzer Sample.sorter
              sample_vectorizer_laws sample_vocabulary_law sample_sorter_laws
              article 10 out)
    as (m & _ & _ & _ & _ & _ & _ & _ & _ & _ & Hplain).
  - lia.
  - exact Hrun.
  - destruct Hplain as (Hlen & Hincl & Hall).
    + intros entry [<-|[<-|[<-|[]]]]; vm_compute; reflexivity.
    + repeat split; [exact Hlen | exact Hincl |].
      apply Hall. vm_compute. reflexivity.
Defined.

End SalienceTheorems.

(** ** Semantic Deduplicator *)

Module DedupFacts.
Import Dedup.

Lemma combinations_In {A} (l : list A) a b :
  In (a, b) (combinations l) -> In a l /\ In b l.
Proof.
  induction l as [|x l IH]; simpl; [tauto|].
  intros Hin. apply in_app_or in Hin. destruct Hin as [Hin|Hin].
  - apply in_map_iff in Hin. destruct Hin as (y & [= -> ->] & Hy). auto.
  - destruct (IH Hin). auto.
Qed.

(** [combinations] pairs every element with the later ones only. *)
Lemma combinations_ordered {A} (R : A -> A -> Prop) (l : list A) a b :
  StronglySorted R l -> In (a, b) (combinations l) -> R a b.
Proof.
  induction 1 as [|x l Hs IH Hx]; simpl; [tauto|].
  intros Hin. apply in_app_or in Hin. destruct Hin as [Hin|Hin].
  - apply in_map_iff in Hin. destruct Hin as (y & [= -> ->] & Hy).
    rewrite Forall_forall in Hx. now apply Hx.
  - now apply IH.
Qed.

Lemma filter_all {A} (p : A -> bool) (l : list A) :
  (forall x, In x l -> p x = true) -> filter p l = l.
Proof.
  induction l as [|x l IH]; simpl; intros Hp; [reflexivity|].
  rewrite (Hp x) by now left. f_equal. apply IH. intros; apply Hp; now right.
Qed.

Lemma filter_filter {A} (p q : A -> bool) (l : list A) :
  filter p (filter q l) = filter (fun x => q x && p x) l.
Proof.
  induction l as [|x l IH]; simpl; [reflexivity|].
  destruct (q x); simpl; [destruct (p x)|]; now rewrite IH.
Qed.

Lemma enumerate_filter {A} (l : list A) : forall k j,
  filter (fun ir => Nat.eqb (fst ir) j) (enumerate_from k l) =
  if k <=? j then
    match nth_error l (j - k) with Some r => [(j, r)] | None => [] end
  else [].
Proof.
  induction l as [|x l IH]; intros k j; simpl.
  - destruct (k <=? j); [|reflexivity]. now destruct (j - k).
  - rewrite IH. destruct (Nat.eqb_spec k j) as [->|Hne].
    + rewrite Nat.leb_refl, Nat.sub_diag.
      replace (S j <=? j) with false by (symmetry; apply Nat.leb_gt; lia).
      reflexivity.
    + destruct (Nat.leb_spec k j) as [Hle|Hgt].
      * replace (S k <=? j) with true by (symmetry; apply Nat.leb_le; lia).
        replace (j - k) with (S (j - S k)) by lia. reflexivity.
      * replace (S k <=? j) with false by (symmetry; apply Nat.leb_gt; lia).
        reflexivity.
Qed.

Lemma enumerate_In {A} (l : list A) : forall k i x,
  In (i, x) (enumerate_from k l) -> k <= i /\ nth_error l (i - k) = Some x.
Proof.
  induction l as [|y l IH]; intros k i x; simpl; [tauto|].
  intros [[= -> ->]|Hin].
  - now rewrite Nat.sub_diag.
  - destruct (IH _ _ _ Hin) as [Hle Hnth]. split; [lia|].
    replace (i - k) with (S (i - S k)) by lia. exact Hnth.
Qed.

Section WithModel.
Context `{M : SpacyModel}.

Lemma temp_series_In dataframe d :
  In d (map snd (temp_series dataframe)) ->
  exists r, nth_error dataframe (oid d) = Some r /\
            doc d = NLP (join [Normalizer.blank] (Digest r)).
Proof.
  unfold temp_series. rewrite map_map. intros Hin.
  apply in_map_iff in Hin. destruct Hin as ([i r] & <- & Hin).
  apply enumerate_In in Hin. destruct Hin as [_ Hnth].
  rewrite Nat.sub_0_r in Hnth. simpl. now exists r.
Qed.

(** Objects come in the order of their rows. *)
Lemma temp_series_sorted dataframe :
  StronglySorted (fun a b => oid a < oid b) (map snd (temp_series dataframe)).
Proof.
  unfold temp_series. rewrite map_map. generalize 0.
  induction dataframe as [|r dataframe IH]; intros k; simpl; constructor.
  - apply IH.
  - rewrite Forall_forall. intros d Hd.
    apply in_map_iff in Hd. destruct Hd as ([i r'] & <- & Hin).
    apply enumerate_In in Hin. simpl. lia.
Qed.

(** Identity singles out one row: the comparison selects exactly the
    label of the row the candidate was made for. *)
Lemma index_where_candidate dataframe d :
  In d (map snd (temp_series dataframe)) ->
  index_where (temp_series dataframe) d = [label_of dataframe d].
Proof.
  intros Hin. destruct (temp_series_In _ _ Hin) as (r & Hr & _).
  unfold index_where, temp_series, label_of.
  assert (Hf : forall l,
    filter (fun e => obj_eqb (snd e) d) (map object_for l) =
    map object_for (filter (fun ir => Nat.eqb (fst ir) (oid d)) l)).
  { induction l as [|[i x] l IH]; simpl; [reflexivity|].
    unfold obj_eqb at 1; simpl. destruct (Nat.eqb i (oid d)); simpl;
      now rewrite IH. }
  rewrite Hf, enumerate_filter. simpl. rewrite Nat.sub_0_r, Hr. reflexivity.
Qed.

(** Dropping one label: whether the label is still there or the drop
    raises, the frame the loop goes on with has no row of that label. *)
Lemma drop_one dataframe l :
  match drop dataframe [l] with Some d => d | None => dataframe end =
  filter (fun r => negb (Z.eqb (index r) l)) dataframe.
Proof.
  unfold drop. simpl. rewrite andb_true_r.
  destruct (has_label dataframe l) eqn:E.
  - apply filter_ext. intros r. rewrite orb_false_r.
    now rewrite Z.eqb_sym.
  - symmetry. apply filter_all. intros r Hr.
    unfold has_label in E.
    destruct (Z.eqb (index r) l) eqn:El; [|reflexivity].
    exfalso. apply not_true_iff_false in E. apply E.
    apply existsb_exists. now exists r.
Qed.

Lemma step_filter dataframe frame d1 d2 :
  In (d1, d2) (digest_pairs dataframe) ->
  step (temp_series dataframe) frame (d1, d2) =
  if similar d1 d2
  then filter (keeps [label_of dataframe (candidate d1 d2)]) frame
  else frame.
Proof.
  intros Hin. unfold step. destruct (similar d1 d2); [|reflexivity].
  apply combinations_In in Hin. destruct Hin as [H1 H2].
  rewrite index_where_candidate
    by (unfold candidate; destruct (_ <? _); assumption).
  rewrite drop_one. apply filter_ext. intros r. unfold keeps. simpl.
  now rewrite orb_false_r.
Qed.

Lemma fold_step dataframe pairs : forall frame,
  incl pairs (digest_pairs dataframe) ->
  fold_left (step (temp_series dataframe)) pairs frame =
  filter (keeps (labels_of dataframe pairs)) frame.
Proof.
  induction pairs as [|[d1 d2] pairs IH]; intros frame Hincl; cbn [fold_left].
  - symmetry. now apply filter_all.
  - rewrite IH by (intros p Hp; apply Hincl; now right).
    rewrite step_filter by (apply Hincl; now left).
    unfold labels_of. cbn [filter fst snd].
    destruct (similar d1 d2); cbn [map fst snd].
    + rewrite filter_filter. apply filter_ext. intros r. unfold keeps. simpl.
      rewrite orb_false_r, negb_orb. reflexivity.
    + reflexivity.
Qed.

(** The pass keeps exactly the rows whose label it never asked to
    drop. *)
Lemma remove_similar_filter dataframe :
  remove_similar dataframe =
  filter (keeps (dropped_labels dataframe)) dataframe.
Proof.
  unfold remove_similar. rewrite fold_step by apply incl_refl. reflexivity.
Qed.

Lemma dropped_label_In dataframe d1 d2 :
  In (d1, d2) (digest_pairs dataframe) -> similar d1 d2 = true ->
  In (label_of dataframe (candidate d1 d2)) (dropped_labels dataframe).
Proof.
  intros Hin Hsim. unfold dropped_labels, labels_of.
  apply in_map_iff. exists (d1, d2). split; [reflexivity|].
  apply filter_In. now split.
Qed.

Lemma keeps_spec labels r : keeps labels r = true <-> ~ In (index r) labels.
Proof.
  unfold keeps. rewrite negb_true_iff, <- not_true_iff_false, existsb_exists.
  split; intros H Hin; apply H.
  - exists (index r). split; [assumption | apply Z.eqb_refl].
  - destruct Hin as (l & Hl & E). apply Z.eqb_eq in E. now subst.
Qed.

End WithModel.

End DedupFacts.

Module DedupTheorems.
Import Dedup DedupFacts.


Section WithModel.
Context `{M : SpacyModel}.


(** C10.  In a similar pair of digests of equal length, the removal
    candidate is the second digest, the one that comes later in the
    collection, and never the first; the drop asks for the label of its
    row, and no row of that label is in the output. *)
Theorem tie_removes_second (dataframe : DataFrame) (d1 d2 : DocObj) :
  In (d1, d2) (digest_pairs dataframe) ->
  similar d1 d2 = true ->
  doc_len (doc d1) = doc_len (doc d2) ->
  oid d1 < oid d2 /\
  candidate d1 d2 = d2 /\
  candidate d1 d2 <> d1 /\
  index_where (temp_series dataframe) (candidate d1 d2) =
    [label_of dataframe d2] /\
  (forall r, In r (remove_similar dataframe) ->
             index r <> label_of dataframe d2).
Proof.
  intros Hin Hsim Hlen.
  assert (Horder : oid d1 < oid d2).
  { apply (@combinations_ordered _ (fun a b => oid a < oid b)
             (map snd (temp_series dataframe)));
      [apply temp_series_sorted | exact Hin]. }
  assert (Hcand : candidate d1 d2 = d2).
  { unfold candidate. rewrite Hlen, Nat.ltb_irrefl. reflexivity. }
  rewrite Hcand. repeat split.
  - exact Horder.
  - intros E. rewrite E in Horder. lia.
  - apply index_where_candidate.
    apply combinations_In in Hin. tauto.
  - intros r Hr E. rewrite remove_similar_filter in Hr.
    apply filter_In in Hr. destruct Hr as [_ Hk].
    apply keeps_spec in Hk. apply Hk. rewrite E, <- Hcand.
    now apply dropped_label_In.
Qed.

End WithModel.


(** Two digests of two tokens each: the second row goes. *)
Lemma tie_removes_second_witness :
  let d1 := {| oid := 0; doc := NLP (SpacyModel := Sample.spacy)
                 (join [Normalizer.blank] [Sample.voda; Sample.reka]) |} in
  let d2 := {| oid := 1; doc := NLP (SpacyModel := Sample.spacy)
                 (join [Normalizer.blank] [Sample.reka; Sample.voda]) |} in
  oid d1 < oid d2 /\ candidate d1 d2 = d2 /\ candidate d1 d2 <> d1.
Proof.
  intros d1 d2.
  destruct (@tie_removes_second Sample.spacy Sample.tied_rows d1 d2)
    as (H1 & H2 & H3 & _).
  - vm_compute. left. reflexivity.
  - vm_compute. reflexivity.
  - vm_compute. reflexivity.
  - repeat split; assumption.
Defined.

End DedupTheorems.

(** ** Text Normalizer *)

Module NormalizerTheorems.
Import Normalizer.

(** After the last substitution only letters of the class and spaces are
    left. *)
Lemma sub_non_cyrillic_go_script s : forall in_run,
  forallb in_script (sub_non_cyrillic_go in_run s) = true.
Proof.
  induction s as [|c s IH]; intros in_run; simpl; [reflexivity|].
  destruct (is_cyrillic c) eqn:E; simpl.
  - unfold in_script at 1. rewrite E. apply IH.
  - destruct in_run; simpl; apply IH.
Qed.

Lemma clean_script article : forallb in_script (clean article) = true.
Proof. apply sub_non_cyrillic_go_script. Qed.

(** The first substitution leaves no [@] behind. *)
Lemma sub_email_go_no_at s : forall in_match,
  ~ In at_sign (sub_email_go in_match s).
Proof.
  induction s as [|c s IH]; intros in_match; simpl; [tauto|].
  destruct in_match.
  - destruct (is_space c); apply IH.
  - destruct (is_space c) eqn:Es.
    + intros [->|Hin]; [discriminate Es | exact (IH _ Hin)].
    + destruct (N.eqb_spec c at_sign) as [->|Hne]; simpl; [apply IH|].
      destruct (run_has_at s); [apply IH|].
      intros [E|Hin]; [congruence | exact (IH _ Hin)].
Qed.

Lemma occurs_in_chars u s c : occurs_in u s -> In c u -> In c s.
Proof.
  intros (pre & post & ->) Hc.
  apply in_or_app. right. apply in_or_app. now left.
Qed.

Lemma email_like_at u : email_like u = true -> In at_sign u.
Proof.
  unfold email_like. intros H. apply andb_true_iff in H. destruct H as [_ H].
  apply existsb_exists in H. destruct H as (x & Hx & E).
  apply N.eqb_eq in E. subst x.
  destruct (rev u) as [|c r] eqn:Hrev; [assumption|].
  destruct (is_space c); [|assumption].
  apply in_rev. rewrite Hrev. right. now apply in_rev.
Qed.

Lemma starts_with_head p0 p u :
  starts_with (p0 :: p) u = true -> In p0 u.
Proof.
  destruct u as [|c u]; simpl; [discriminate|].
  intros H. apply andb_true_iff in H. destruct H as [E _].
  apply N.eqb_eq in E. now left.
Qed.

(** A URL-like string starts with the letter [h] or the letter [w]. *)
Lemma url_like_latin u : url_like u = true -> In 104%N u \/ In 119%N u.
Proof.
  unfold url_like. intros H. apply orb_true_iff in H. destruct H as [H|H].
  - left. rewrite !andb_true_iff in H. destruct H as [[H _] _].
    exact (@starts_with_head _ _ _ H).
  - right. rewrite andb_true_iff in H. destruct H as [H _].
    exact (@starts_with_head _ _ _ H).
Qed.

Lemma forallb_In {A} (p : A -> bool) l x :
  forallb p l = true -> In x l -> p x = true.
Proof. intros H. rewrite forallb_forall in H. apply H. Qed.

Section WithModel.
Context `{M : SpacyModel}.

(** Every lemma of the output is written in Cyrillic letters, when those
    of the tokens with an allowed tag are. *)
Lemma lemmatize_script article lemma :
  LemmasInScript ->
  In lemma (lemmatize article) -> forallb cyrillic_block lemma = true.
Proof.
  intros L. unfold lemmatize. intros Hin. apply in_map_iff in Hin.
  destruct Hin as (token & <- & Htok). apply filter_In in Htok.
  apply (lemmas_in_script (clean article)); [apply clean_script | tauto..].
Qed.

(** C8.  For every language model, every lemma of the output is the
    lemma of a token of the cleaned text whose tag is one of [POS_TAGS].
    And when the lemmatiser writes the lemmas of the tokens with such a
    tag in the script of the text, no email-like or URL-like substring of
    the input occurs in a lemma of the output. *)
Theorem lemmatize_output (article : str) :
  (forall lemma, In lemma (lemmatize article) ->
     exists token,
       In token (tokens (NLP (clean article))) /\
       lemma_ token = lemma /\
       In (pos_ token) POS_TAGS) /\
  (LemmasInScript ->
   forall u lemma,
     occurs_in u article ->
     email_like u = true \/ url_like u = true ->
     In lemma (lemmatize article) ->
     ~ occurs_in u lemma).
Proof.
  split.
  - intros lemma Hin. unfold lemmatize in Hin. apply in_map_iff in Hin.
    destruct Hin as (token & <- & Htok). apply filter_In in Htok.
    destruct Htok as [Htok Hpos]. exists token. repeat split; [assumption|].
    unfold allowed in Hpos. apply existsb_exists in Hpos.
    destruct Hpos as (p & Hp & E).
    replace (pos_ token) with p; [assumption|].
    destruct (pos_ token), p; simpl in E; congruence.
  - intros L u lemma _ Hlike Hin Hocc.
    pose proof (lemmatize_script _ _ L Hin) as Hscript.
    assert (Hbad : exists c, In c u /\ cyrillic_block c = false).
    { destruct Hlike as [He|Hu].
      - exists at_sign. split; [now apply email_like_at | reflexivity].
      - destruct (url_like_latin _ Hu);
          [exists 104%N | exists 119%N]; split; auto. }
    destruct Hbad as (c & Hc & Hout).
    pose proof (@forallb_In _ _ _ _ Hscript (@occurs_in_chars _ _ _ Hocc Hc)).
    congruence.
Qed.

End WithModel.

(** The pieces of a split hold characters of the text that are not
    separators. *)
Lemma split_go_chars (is_sep : N -> bool) (P : N -> Prop) s : forall cur piece,
  Forall P cur ->
  (forall c, In c s -> is_sep c = false -> P c) ->
  In piece (Sample.split_go is_sep cur s) -> Forall P piece.
Proof.
  induction s as [|c s IH]; intros cur piece Hcur Hs;
    cbn [Sample.split_go].
  - destruct cur as [|x cur]; intros Hin; [destruct Hin|].
    destruct Hin as [<-|[]]. apply Forall_rev. exact Hcur.
  - assert (Hs' : forall c', In c' s -> is_sep c' = false -> P c')
      by (intros; apply Hs; [now right | assumption]).
    destruct (is_sep c) eqn:E.
    + destruct cur as [|x cur].
      * apply IH; [constructor | assumption].
      * intros [<-|Hin]; [apply Forall_rev; exact Hcur|].
        revert Hin. apply IH; [constructor | assumption].
    + apply IH; [|assumption].
      constructor; [apply Hs; [now left | assumption] | assumption].
Qed.

Lemma sample_spacy_in_script : LemmasInScript (M := Sample.spacy).
Proof.
  intros text token Htext Hin _. simpl in *.
  apply forallb_forall. apply Forall_forall.
  eapply split_go_chars with (P := fun c => cyrillic_block c = true);
    [constructor | | exact Hin].
  intros c Hc Hsp. pose proof (@forallb_In _ _ _ _ Htext Hc) as Hscript.
  unfold in_script in Hscript. apply orb_true_iff in Hscript.
  destruct Hscript as [Hcyr|Hblank].
  - unfold is_cyrillic in Hcyr. unfold cyrillic_block.
    rewrite orb_true_iff, !andb_true_iff, !N.leb_le in Hcyr.
    rewrite andb_true_iff, !N.leb_le. lia.
  - apply N.eqb_eq in Hblank. subst c. discriminate Hsp.
Qed.

(** A text with an address and a link: neither occurs in a lemma of the
    output. *)
Lemma lemmatize_output_witness :
  let article := utf8 "Пишите на ivan@mail.ru или http://vtb.ru курс валют" in
  Forall (fun lemma => ~ occurs_in (utf8 "ivan@mail.ru") lemma /\
                       ~ occurs_in (utf8 "http://vtb.ru") lemma)
         (lemmatize (M := Sample.spacy) article).
Proof.
  intros article. apply Forall_forall. intros lemma Hin.
  destruct (@lemmatize_output Sample.spacy article) as [_ Hclean].
  specialize (Hclean sample_spacy_in_script).
  split; apply (Hclean _ lemma); try exact Hin.
  - exists (utf8 "Пишите на "), (utf8 " или http://vtb.ru курс валют").
    vm_compute. reflexivity.
  - left. vm_compute. reflexivity.
  - exists (utf8 "Пишите на ivan@mail.ru или "), (utf8 " курс валют").
    vm_compute. reflexivity.
  - right. vm_compute. reflexivity.
Defined.

End NormalizerTheorems.

(** ** The embedding on concrete inputs *)

Module Examples.

Example combinations_of_three :
  combinations [1; 2; 3] = [(1, 2); (1, 3); (2, 3)].
Proof. reflexivity. Qed.

Example product_of_two :
  product [1; 2] [3; 4] = [(1, 3); (1, 4); (2, 3); (2, 4)].
Proof. reflexivity. Qed.

Example head_negative : head (-1) [1; 2; 3] = [1; 2].
Proof. reflexivity. Qed.

Example tail_zero : tail 0 [1; 2; 3] = [].
Proof. reflexivity. Qed.

Example tail_two : tail 2 [1; 2; 3] = [2; 3].
Proof. reflexivity. Qed.

(** The first three substitutions on a line with an address, two links
    and near misses: [httpwww] goes as a link, [wwwx] stays, and
    [www a] goes because the dot takes the space. *)
Example substitutions_trace :
  Normalizer.sub_www (Normalizer.sub_http (Normalizer.sub_email
    (utf8 "see a@b.c x http://q.r/s y www.z.com t httpwww wwwx www a")))
  = utf8 "see x  y  t  wwwx ".
Proof. vm_compute. reflexivity. Qed.

Example clean_trace :
  Normalizer.clean (utf8 "Курс: 100 руб., см. http://vtb.ru (банк)")
  = utf8 "Курс руб см банк ".
Proof. vm_compute. reflexivity. Qed.

Example lemmatize_trace :
  Normalizer.lemmatize (M := Sample.spacy)
    (utf8 "Пишите на ivan@mail.ru или www.vtb.ru курс валют")
  = [utf8 "Пишите"; utf8 "или"; utf8 "курс"; utf8 "валют"].
Proof. vm_compute. reflexivity. Qed.

Example median_odd : Relevance.median [3; 1; 2]%Q = Ok 2%Q.
Proof. reflexivity. Qed.

Example median_even :
  Relevance.median [4; 1; 3; 2]%Q = Ok ((2 + 3) / 2)%Q.
Proof. reflexivity. Qed.

Example median_empty :
  Relevance.median [] = Raise (StatisticsError "no median for empty data").
Proof. reflexivity. Qed.

(** Ties in [most_common] keep the insertion order of the counter: the
    keys of the new half first, then those only the old half has. *)
Example difference_ties :
  let a := utf8 "a" in let b := utf8 "b" in let c := utf8 "c" in
  Trend.most_common
    (Trend.subtract (Trend.count [b; a; b]) (Trend.count [c; a; b; b]))
  = [(b, 0%Z); (a, 0%Z); (c, (-1)%Z)].
Proof. vm_compute. reflexivity. Qed.

Example first_change_at_two : Trend.first_change [0; 0; 1; 2] = Some 2.
Proof. reflexivity. Qed.

Example first_change_never : Trend.first_change [1; 1; 1] = None.
Proof. reflexivity. Qed.

(** A batch of 21 articles: the eleventh is in neither half. *)
Example halves_of_21 :
  length (Trend.old_articles (Sample.batch 11)) = 10 /\
  length (Trend.new_articles (Sample.batch 11)) = 10.
Proof. split; reflexivity. Qed.

End Examples.

(* ===================================================================== *)
(** * Part III: further properties of the code *)
(* ===================================================================== *)

(** ** Trend Detector: the frequency diff and the split *)

Module TrendMore.
Import Trend TrendFacts TrendSpec.

Lemma get_counter_add k delta c k' :
  get (counter_add k delta c) k' =
  (get c k' + (if str_eqb k k' then delta else 0))%Z.
Proof.
  induction c as [|[k0 v] c IH]; simpl.
  - destruct (str_eqb k k'); lia.
  - destruct (str_eqb k0 k) eqn:E0; simpl.
    + apply str_eqb_eq in E0. subst k0.
      destruct (str_eqb k k'); lia.
    + destruct (str_eqb k0 k') eqn:E1; [|exact IH].
      apply str_eqb_eq in E1. subst k0.
      destruct (str_eqb k k') eqn:E2; [|lia].
      apply str_eqb_eq in E2. subst k'.
      rewrite str_eqb_refl in E0. discriminate.
Qed.

Lemma get_absent c k : ~ In k (keys c) -> get c k = 0%Z.
Proof.
  induction c as [|[k0 v] c IH]; simpl; intros Hk; [reflexivity|].
  destruct (str_eqb k0 k) eqn:E.
  - apply str_eqb_eq in E. tauto.
  - apply IH. tauto.
Qed.

Lemma get_present c k v : NoDup (keys c) -> In (k, v) c -> get c k = v.
Proof.
  induction c as [|[k0 v0] c IH]; simpl; intros Hnd Hin; [contradiction|].
  inversion Hnd as [|? ? Hnot Hnd']; subst.
  destruct Hin as [[= -> ->]|Hin].
  - now rewrite str_eqb_refl.
  - destruct (str_eqb k0 k) eqn:E; [|now apply IH].
    apply str_eqb_eq in E. subst k0. exfalso. apply Hnot.
    apply in_map_iff. now exists (k, v).
Qed.

Lemma present_get c k : In k (keys c) -> In (k, get c k) c.
Proof.
  induction c as [|[k0 v0] c IH]; simpl; intros Hin; [contradiction|].
  destruct (str_eqb k0 k) eqn:E.
  - apply str_eqb_eq in E. subst k0. now left.
  - right. apply IH. destruct Hin as [->|Hin]; [|assumption].
    now rewrite str_eqb_refl in E.
Qed.

Lemma keys_counter_add k delta c k' :
  In k' (keys (counter_add k delta c)) <-> k' = k \/ In k' (keys c).
Proof.
  rewrite counter_add_keys.
  destruct (existsb (fun k0 => str_eqb k0 k) (keys c)) eqn:E.
  - split; [tauto|]. intros [->|H]; [|assumption].
    apply existsb_exists in E. destruct E as (x & Hx & Ex).
    apply str_eqb_eq in Ex. now subst.
  - rewrite in_app_iff. simpl. intuition congruence.
Qed.

Lemma count_from items : forall c k,
  let c' := fold_left (fun c x => counter_add x 1 c) items c in
  get c' k = (get c k + occurrences items k)%Z /\
  (In k (keys c') <-> In k items \/ In k (keys c)).
Proof.
  unfold occurrences.
  induction items as [|x items IH]; intros c k; simpl.
  - split; [lia | tauto].
  - destruct (IH (counter_add x 1 c) k) as [Hget Hkeys]. split.
    + rewrite Hget, get_counter_add.
      destruct (str_eqb x k); simpl length; lia.
    + rewrite Hkeys, keys_counter_add. intuition congruence.
Qed.

Lemma subtract_from other : forall self k,
  NoDup (keys other) ->
  get (subtract self other) k = (get self k - get other k)%Z /\
  (In k (keys (subtract self other)) <-> In k (keys other) \/ In k (keys self)).
Proof.
  unfold subtract.
  induction other as [|[k0 v0] other IH]; intros self k Hnd; simpl.
  - split; [lia | tauto].
  - inversion Hnd as [|? ? Hnot Hnd']; subst.
    destruct (IH (counter_add k0 (- v0) self) k Hnd') as [Hget Hkeys]. split.
    + rewrite Hget, get_counter_add.
      destruct (str_eqb k0 k) eqn:E; [|lia].
      apply str_eqb_eq in E. subst k0. rewrite (get_absent _ _ Hnot). lia.
    + rewrite Hkeys, keys_counter_add. intuition congruence.
Qed.

(** X1.  The frequency diff lists no term twice, and it holds exactly
    the terms of the two halves, each with the number of its occurrences
    in the new half minus the number in the old half. *)
Theorem difference_counts (articles : list (list str)) :
  let in_new := concat (new_articles articles) in
  let in_old := concat (old_articles articles) in
  NoDup (keys (difference articles)) /\
  forall term v,
    In (term, v) (difference articles) <->
    (In term in_new \/ In term in_old) /\
    v = (occurrences in_new term - occurrences in_old term)%Z.
Proof.
  intros in_new in_old. split; [apply difference_NoDup|].
  intros term v. unfold difference. fold in_new in_old.
  set (c := subtract (count in_new) (count in_old)).
  assert (Hnd : NoDup (keys c)) by apply subtract_NoDup, count_NoDup.
  destruct (count_from in_new [] term) as [Hgn Hkn].
  destruct (count_from in_old [] term) as [Hgo Hko].
  destruct (subtract_from (count in_old) (count in_new) term (count_NoDup _))
    as [Hget Hkeys].
  fold c in Hget, Hkeys. unfold count in Hget, Hkeys.
  simpl in Hgn, Hgo, Hkn, Hko.
  assert (Hval : get c term =
                 (occurrences in_new term - occurrences in_old term)%Z)
    by (rewrite Hget, Hgn, Hgo; lia).
  assert (Hk : In term (keys c) <-> In term in_new \/ In term in_old)
    by (rewrite Hkeys, Hkn, Hko; tauto).
  split.
  - intros Hin. apply (Permutation_in _ (Permutation_sym (most_common_perm c)))
      in Hin.
    split.
    + apply Hk. apply in_map_iff. now exists (term, v).
    + rewrite <- Hval. symmetry. now apply get_present.
  - intros [Hterm ->]. apply (Permutation_in _ (most_common_perm c)).
    rewrite <- Hval. apply present_get. now apply Hk.
Qed.

(** X2.  The two halves do not overlap: the batch is the old half, then
    at most two articles that are in neither half, then the new half; no
    article is left out exactly when the batch size is a multiple of
    four. *)
Theorem halves_partition (articles : list (list str)) :
  exists middle,
    articles = old_articles articles ++ middle ++ new_articles articles /\
    length middle <= 2 /\
    (middle = [] <-> length articles mod 4 = 0).
Proof.
  set (n := length articles). set (h := n / 2).
  assert (Hold : old_articles articles = firstn h articles).
  { unfold old_articles, head.
    rewrite TrendTheorems.half_point_nat. apply slice_to_nonneg. }
  assert (Hnew : new_articles articles = skipn (n - (h - h mod 2)) articles).
  { unfold new_articles. rewrite TrendTheorems.new_length_nat. fold n h.
    destruct (Nat.eq_dec (h - h mod 2) 0) as [E|E].
    - rewrite E. simpl. rewrite Nat.sub_0_r. unfold n.
      now rewrite skipn_all.
    - apply tail_pos. lia. }
  pose proof (Nat.div_mod_eq n 2) as Hn. fold h in Hn.
  pose proof (Nat.div_mod_eq h 2) as Hh.
  pose proof (Nat.div_mod_eq n 4) as Hn4.
  assert (n mod 2 < 2) by (apply Nat.mod_upper_bound; lia).
  assert (h mod 2 < 2) by (apply Nat.mod_upper_bound; lia).
  assert (n mod 4 < 4) by (apply Nat.mod_upper_bound; lia).
  set (m := n - (h - h mod 2) - h).
  exists (firstn m (skipn h articles)).
  assert (Hlen : length (firstn m (skipn h articles)) = m).
  { rewrite length_firstn, length_skipn. fold n. lia. }
  repeat split.
  - rewrite Hold, Hnew.
    replace (n - (h - h mod 2)) with (m + h) by lia.
    rewrite <- skipn_skipn, firstn_skipn. symmetry. apply firstn_skipn.
  - rewrite Hlen. lia.
  - intros Hnil. rewrite Hnil in Hlen. simpl in Hlen. lia.
  - intros Hmod. apply length_zero_iff_nil. rewrite Hlen. lia.
Qed.

Lemma sorted_split (front rest : Counter) :
  StronglySorted more_common (front ++ rest) ->
  forall a b, In a front -> In b rest -> (snd b <= snd a)%Z.
Proof.
  induction front as [|x front IH]; simpl; intros Hs a b Ha Hb; [contradiction|].
  inversion Hs as [|? ? Hs' Hx]; subst.
  destruct Ha as [->|Ha]; [|now apply IH].
  rewrite Forall_forall in Hx. apply Hx, in_or_app. now right.
Qed.

Lemma labels_before_change y_pred i :
  first_label_change y_pred i ->
  forall k, k < i -> nth k y_pred 0 = nth 0 y_pred 0.
Proof.
  intros (_ & _ & Hsame) k. induction k as [|k IH]; intros Hk; [reflexivity|].
  rewrite (Hsame (S k)) by lia. simpl. rewrite Nat.sub_0_r. apply IH. lia.
Qed.

(** X3.  When the detector returns, every term of the trending set has
    the cluster label of the top-ranked term, and its diff is at least the
    diff of every term left out. *)
Theorem trending_dominates `{L : KMeansLaws}
    (articles : list (list str)) (trending : Counter) :
  generate_trend_wordcloud articles = Ok trending ->
  exists y_pred rest,
    fit_predict (map snd (difference articles)) = Some y_pred /\
    difference articles = trending ++ rest /\
    (forall k, k < length trending -> nth k y_pred 0 = nth 0 y_pred 0) /\
    (forall a b, In a trending -> In b rest -> (snd b <= snd a)%Z).
Proof.
  intros Hrun. unfold generate_trend_wordcloud in Hrun.
  set (diff := difference articles) in *.
  destruct (length articles <? 20); [discriminate|].
  destruct (fit_predict (map snd diff)) as [y_pred|] eqn:Hy; [|discriminate].
  simpl in Hrun. injection Hrun as <-.
  pose proof (labels_length _ Hy) as Hlen. rewrite length_map in Hlen.
  assert (Hsorted : StronglySorted more_common diff)
    by apply most_common_sorted.
  exists y_pred. unfold trending_keywords.
  destruct (first_change y_pred) as [i|] eqn:Hi.
  - pose proof (first_change_some _ Hi) as Hfirst.
    assert (Hd : diff = firstn i diff ++ skipn i diff)
      by (symmetry; apply firstn_skipn).
    exists (skipn i diff). repeat split; [exact Hd | |].
    + intros k Hk. rewrite length_firstn in Hk.
      apply (labels_before_change Hfirst). lia.
    + apply sorted_split. now rewrite <- Hd.
  - exists diff. repeat split.
    + simpl. intros k Hk. lia.
    + intros a b [].
Qed.

(** The batch of 20 articles: the new term is trending and outgrew the
    rest. *)
Lemma trending_dominates_witness :
  exists y_pred rest,
    fit_predict (KMeans := Sample.kmeans)
      (map snd (difference (Sample.batch 10))) = Some y_pred /\
    difference (Sample.batch 10) = [(Sample.inflyatsiya, 10%Z)] ++ rest /\
    (forall a b, In a [(Sample.inflyatsiya, 10%Z)] -> In b rest ->
                 (snd b <= snd a)%Z).
Proof.
  destruct (@trending_dominates _ TrendTheorems.sample_kmeans_laws
              (Sample.batch 10) [(Sample.inflyatsiya, 10%Z)])
    as (y_pred & rest & H1 & H2 & _ & H4).
  - vm_compute. reflexivity.
  - exists y_pred, rest. repeat split; assumption.
Defined.

(** X4.  A batch of 20 or more articles with fewer than three distinct
    terms in its two halves cannot be clustered: the call to the
    clustering raises and no trending set is produced. *)
Theorem too_few_terms `{L : KMeansLaws} (articles : list (list str)) :
  20 <= length articles ->
  length (difference articles) < 3 ->
  generate_trend_wordcloud articles =
  Raise (LibraryError "KMeans.fit_predict").
Proof.
  intros Hn Hfew. unfold generate_trend_wordcloud.
  destruct (Nat.ltb_spec (length articles) 20); [lia|].
  destruct (fit_predict (map snd (difference articles))) as [y|] eqn:Hy;
    [|reflexivity].
  pose proof (enough_samples _ Hy) as Hmin. rewrite length_map in Hmin. lia.
Qed.

(** Twenty empty articles. *)
Lemma too_few_terms_witness :
  generate_trend_wordcloud (K := Sample.kmeans) (repeat [] 20) =
  Raise (LibraryError "KMeans.fit_predict").
Proof.
  apply (@too_few_terms _ TrendTheorems.sample_kmeans_laws (repeat [] 20)).
  - simpl. lia.
  - vm_compute. lia.
Defined.

End TrendMore.

(** ** Relevance Scorer: bounds and order of the inputs *)

Module RelevanceMore.
Import Relevance RelevanceTheorems.

Section WithModel.
Context `{M : SpacyModel}.

(** X5.  The score of non-empty inputs lies within any bounds that hold
    for every pairwise similarity. *)
Theorem eval_article_bounded (terms role_keywords : list str) (lo hi : Q) :
  terms <> [] -> role_keywords <> [] ->
  (forall t k, In t terms -> In k role_keywords ->
               (lo <= similarity (NLP t) (NLP k) <= hi)%Q) ->
  exists m, eval_article terms role_keywords = Ok m /\ (lo <= m <= hi)%Q.
Proof.
  intros Ht Hk Hbound. rewrite eval_article_unfold.
  destruct (@median_spec (pairwise terms role_keywords))
    as (m & Hm & ordered & Hperm & _ & Hodd & Heven).
  { rewrite pairwise_nil. tauto. }
  exists m. split; [exact Hm|].
  assert (Hin : forall i x, nth_error ordered i = Some x -> (lo <= x <= hi)%Q).
  { intros i x Hx. apply nth_error_In in Hx.
    apply (Permutation_in _ (Permutation_sym Hperm)) in Hx.
    unfold pairwise in Hx. apply in_flat_map in Hx.
    destruct Hx as (t & Hint & Hx). apply in_map_iff in Hx.
    destruct Hx as (k & <- & Hink). now apply Hbound. }
  destruct (Nat.eq_dec (length ordered mod 2) 1) as [E|E].
  - exact (Hin _ _ (Hodd E)).
  - assert (E0 : length ordered mod 2 = 0).
    { pose proof (Nat.mod_upper_bound (length ordered) 2). lia. }
    destruct (Heven E0) as (a & b & Ha & Hb & ->).
    pose proof (Hin _ _ Ha). pose proof (Hin _ _ Hb).
    split; apply Qle_shift_div_l || apply Qle_shift_div_r;
      try reflexivity; lra.
Qed.

End WithModel.

(** The specification's scenario: the overlap coefficient lies between 0
    and 1, and so does the score. *)
Lemma eval_article_bounded_witness :
  exists m,
    eval_article (M := Sample.spacy)
      [Sample.bank; Sample.kredit] [Sample.finansy; Sample.dengi] = Ok m /\
    (0 <= m <= 1)%Q.
Proof.
  apply (@eval_article_bounded Sample.spacy
           [Sample.bank; Sample.kredit] [Sample.finansy; Sample.dengi] 0 1);
    try discriminate.
  intros t k [<-|[<-|[]]] [<-|[<-|[]]]; split; vm_compute; discriminate.
Defined.

(** *** The order of terms and keywords does not matter *)

Lemma Qle_bool_total x y : Qle_bool x y = false -> Qle_bool y x = true.
Proof.
  intros H. apply Qle_bool_iff, Qlt_le_weak, Qnot_le_lt.
  intros Hle. apply Qle_bool_iff in Hle. congruence.
Qed.

Lemma Qle_bool_trans x y z :
  Qle_bool x y = true -> Qle_bool y z = true -> Qle_bool x z = true.
Proof. rewrite !Qle_bool_iff. apply Qle_trans. Qed.

Lemma Qle_bool_compat x y y' :
  (y == y')%Q -> Qle_bool x y = Qle_bool x y'.
Proof.
  intros E. destruct (Qle_bool x y) eqn:H1, (Qle_bool x y') eqn:H2;
    try reflexivity.
  - apply Qle_bool_iff in H1. rewrite E in H1.
    apply Qle_bool_iff in H1. congruence.
  - apply Qle_bool_iff in H2. rewrite <- E in H2.
    apply Qle_bool_iff in H2. congruence.
Qed.

Lemma Forall2_Qeq_refl l : Forall2 Qeq l l.
Proof. induction l; constructor; [reflexivity | assumption]. Qed.

Lemma Forall2_Qeq_trans a b c :
  Forall2 Qeq a b -> Forall2 Qeq b c -> Forall2 Qeq a c.
Proof.
  intros Hab. revert c.
  induction Hab as [|x y a b E _ IH]; intros c Hbc; inversion Hbc; subst;
    constructor; [now rewrite E | now apply IH].
Qed.

Lemma insert_asc_compat x a b :
  Forall2 Qeq a b -> Forall2 Qeq (insert_asc x a) (insert_asc x b).
Proof.
  induction 1 as [|y y' a b E Hab IH]; simpl.
  - apply Forall2_Qeq_refl.
  - rewrite (Qle_bool_compat x E).
    destruct (Qle_bool x y').
    + constructor; [reflexivity | constructor; assumption].
    + constructor; assumption.
Qed.

Lemma pair_swap x y s :
  Forall2 Qeq (if Qle_bool x y then x :: y :: s else y :: x :: s)
              (if Qle_bool y x then y :: x :: s else x :: y :: s).
Proof.
  destruct (Qle_bool x y) eqn:Hxy, (Qle_bool y x) eqn:Hyx;
    try apply Forall2_Qeq_refl.
  - assert (x == y)%Q by (apply Qle_antisym; now apply Qle_bool_iff).
    constructor; [assumption|]. constructor; [now symmetry|].
    apply Forall2_Qeq_refl.
  - apply Qle_bool_total in Hxy. congruence.
Qed.

(** Two insertions commute, up to the order of equal values. *)
Lemma insert_asc_swap x y s :
  Forall2 Qeq (insert_asc x (insert_asc y s)) (insert_asc y (insert_asc x s)).
Proof.
  induction s as [|z s IH].
  - apply pair_swap.
  - cbn [insert_asc].
    destruct (Qle_bool y z) eqn:Hyz, (Qle_bool x z) eqn:Hxz; cbn [insert_asc].
    + rewrite Hxz, Hyz. apply pair_swap.
    + rewrite Hyz, Hxz.
      assert (Hxy : Qle_bool x y = false).
      { destruct (Qle_bool x y) eqn:E; [|reflexivity].
        rewrite (Qle_bool_trans _ _ _ E Hyz) in Hxz. discriminate. }
      rewrite Hxy. apply Forall2_Qeq_refl.
    + rewrite Hxz, Hyz.
      assert (Hyx : Qle_bool y x = false).
      { destruct (Qle_bool y x) eqn:E; [|reflexivity].
        rewrite (Qle_bool_trans _ _ _ E Hxz) in Hyz. discriminate. }
      rewrite Hyx. apply Forall2_Qeq_refl.
    + rewrite Hxz, Hyz. constructor; [reflexivity | exact IH].
Qed.

Lemma sorted_permuted l1 l2 :
  Permutation l1 l2 -> Forall2 Qeq (sorted l1) (sorted l2).
Proof.
  induction 1 as [|x l1 l2 _ IH|x y l|l1 l2 l3 _ IH1 _ IH2]; simpl.
  - constructor.
  - now apply insert_asc_compat.
  - apply insert_asc_swap.
  - eapply Forall2_Qeq_trans; eassumption.
Qed.

Lemma Forall2_Qeq_nth a b :
  Forall2 Qeq a b -> forall i, (nth i a 0 == nth i b 0)%Q.
Proof.
  induction 1 as [|x y a b E _ IH]; intros [|i]; simpl;
    try reflexivity; [exact E | apply IH].
Qed.

Lemma median_permuted l1 l2 :
  Permutation l1 l2 -> same_outcome (median l1) (median l2).
Proof.
  intros Hperm. pose proof (sorted_permuted Hperm) as Hs.
  pose proof (Forall2_length Hs) as Hlen.
  pose proof (Forall2_Qeq_nth Hs) as Hnth.
  unfold median. rewrite <- Hlen.
  destruct (Nat.eqb (length (sorted l1)) 0); [reflexivity|].
  destruct (Nat.eqb (length (sorted l1) mod 2) 1); simpl.
  - apply Hnth.
  - now rewrite !Hnth.
Qed.

Lemma pairwise_permuted `{M : SpacyModel} terms terms' keywords keywords' :
  Permutation terms terms' -> Permutation keywords keywords' ->
  Permutation (pairwise terms keywords) (pairwise terms' keywords').
Proof.
  intros Ht Hk. unfold pairwise.
  transitivity (flat_map (fun t => map (fun k => similarity (NLP t) (NLP k))
                                       keywords') terms).
  - clear Ht. induction terms as [|t terms IH]; simpl; [constructor|].
    apply Permutation_app; [now apply Permutation_map | exact IH].
  - now apply Permutation_flat_map.
Qed.

(** X6.  The outcome does not depend on the order in which the terms or
    the keywords are listed: rearranging either list gives the same
    score, or the same error for an empty list. *)
Theorem eval_article_order_free `{M : SpacyModel}
    (terms terms' role_keywords role_keywords' : list str) :
  Permutation terms terms' ->
  Permutation role_keywords role_keywords' ->
  same_outcome (eval_article terms role_keywords)
               (eval_article terms' role_keywords').
Proof.
  intros Ht Hk. rewrite !eval_article_unfold.
  apply median_permuted. now apply pairwise_permuted.
Qed.

(** Terms and keywords of the scenario, each list reversed. *)
Lemma eval_article_order_free_witness :
  same_outcome
    (eval_article (M := Sample.spacy)
       [Sample.bank; Sample.kredit] [Sample.finansy; Sample.dengi])
    (eval_article (M := Sample.spacy)
       [Sample.kredit; Sample.bank] [Sample.dengi; Sample.finansy]).
Proof.
  apply (@eval_article_order_free Sample.spacy); apply perm_swap.
Defined.

End RelevanceMore.

(** ** Term Salience Extractor: how many terms come back *)

Module SalienceMore.
Import Salience SalienceTheorems.

Section WithLibraries.
Context `{VL : VectorizerLaws} `{SL : SorterLaws}.

(** X7.  The extractor raises exactly when the vectoriser does.
    Otherwise, for a vocabulary of [v] terms, it returns [min N v] terms
    when [N >= 0], and for a negative [N] all terms but the [|N|] of
    lowest rank: [v - |N|] of them, none when [|N| >= v]. *)
Theorem tf_idf_nitems_length (article : list str) (n : Z) :
  match fit_transform article with
  | None =>
      tf_idf_nitems article n =
      Raise (LibraryError "TfidfVectorizer.fit_transform")
  | Some m =>
      exists out,
        tf_idf_nitems article n = Ok out /\
        length out =
        if (0 <=? n)%Z
        then Nat.min (Z.to_nat n) (length (feature_names m))
        else length (feature_names m) - Z.to_nat (- n)
  end.
Proof.
  unfold tf_idf_nitems.
  destruct (fit_transform article) as [m|] eqn:Hfit; [|reflexivity].
  simpl. eexists. split; [reflexivity|].
  pose proof (row_width _ Hfit) as Hwidth.
  assert (Hlen : length (sort_values (combine (feature_names m) (row0 m)))
                 = length (feature_names m)).
  { rewrite <- (Permutation_length (sort_perm _)), length_combine. lia. }
  rewrite length_map. unfold head, slice_to.
  destruct (0 <=? n)%Z; rewrite length_firstn, Hlen; lia.
Qed.

End WithLibraries.

(** Two distinct terms and [N = -1]: one term comes back. *)
Lemma tf_idf_nitems_length_witness :
  exists out,
    tf_idf_nitems (V := Sample.vectorizer) (S := Sample.sorter)
      [Sample.bank; Sample.kredit; Sample.bank] (-1) = Ok out /\
    length out = 1.
Proof.
  exact (@tf_idf_nitems_length _ sample_vectorizer_laws _ sample_sorter_laws
           [Sample.bank; Sample.kredit; Sample.bank] (-1)).
Defined.

End SalienceMore.

(** ** Semantic Deduplicator: what a pass leaves *)

Module DedupMore.
Import Dedup DedupFacts.

Lemma combinations_map {A B} (f : A -> B) (l : list A) :
  combinations (map f l) =
  map (fun p => (f (fst p), f (snd p))) (combinations l).
Proof.
  induction l as [|x l IH]; simpl; [reflexivity|].
  rewrite map_app, IH, !map_map. reflexivity.
Qed.

Lemma enumerate_snd {A} (l : list A) : forall k,
  map snd (enumerate_from k l) = l.
Proof.
  induction l as [|x l IH]; intros k; simpl; [reflexivity|].
  now rewrite IH.
Qed.

Lemma combinations_filter {A} (p : A -> bool) (l : list A) a b :
  In (a, b) (combinations (filter p l)) ->
  In (a, b) (combinations l) /\ p a = true /\ p b = true.
Proof.
  induction l as [|x l IH]; simpl; [tauto|].
  destruct (p x) eqn:E; simpl; intros Hin.
  - apply in_app_or in Hin. destruct Hin as [Hin|Hin].
    + apply in_map_iff in Hin. destruct Hin as (y & [= -> ->] & Hy).
      apply filter_In in Hy. destruct Hy as [Hy Hp].
      repeat split; try assumption.
      apply in_or_app. left. apply in_map_iff. now exists b.
    + destruct (IH Hin) as (H1 & H2 & H3). repeat split; try assumption.
      apply in_or_app. now right.
  - destruct (IH Hin) as (H1 & H2 & H3). repeat split; try assumption.
    apply in_or_app. now right.
Qed.

Lemma filter_none {A} (p : A -> bool) (l : list A) :
  (forall x, In x l -> p x = false) -> filter p l = [].
Proof.
  induction l as [|x l IH]; simpl; intros Hp; [reflexivity|].
  rewrite (Hp x) by now left. apply IH. intros; apply Hp; now right.
Qed.

Section WithModel.
Context `{M : SpacyModel}.

(** The pairs of objects are the pairs of rows, in the same order. *)
Lemma digest_pairs_rows dataframe :
  digest_pairs dataframe =
  map (fun p => (snd (object_for (fst p)), snd (object_for (snd p))))
      (combinations (enumerate_from 0 dataframe)).
Proof.
  unfold digest_pairs, temp_series.
  rewrite map_map, combinations_map. reflexivity.
Qed.

Lemma row_pairs (dataframe : DataFrame) :
  combinations dataframe =
  map (fun p : (nat * Row) * (nat * Row) => (snd (fst p), snd (snd p)))
      (combinations (enumerate_from 0 dataframe)).
Proof.
  rewrite <- (combinations_map (@snd nat Row)), enumerate_snd. reflexivity.
Qed.

Lemma label_of_object dataframe e :
  In e (enumerate_from 0 dataframe) ->
  label_of dataframe (snd (object_for e)) = index (snd e).
Proof.
  destruct e as [i r]. intros Hin. apply enumerate_In in Hin.
  destruct Hin as [_ Hnth]. rewrite Nat.sub_0_r in Hnth.
  unfold label_of. simpl. now rewrite Hnth.
Qed.

(** A near-duplicate pair of rows costs one of the two its label. *)
Lemma near_duplicates_drop dataframe r1 r2 :
  In (r1, r2) (combinations dataframe) ->
  near_duplicates r1 r2 = true ->
  In (index r1) (dropped_labels dataframe) \/
  In (index r2) (dropped_labels dataframe).
Proof.
  rewrite row_pairs. intros Hin Hsim.
  apply in_map_iff in Hin. destruct Hin as ([e1 e2] & [= <- <-] & Hin).
  simpl in Hsim.
  set (d1 := snd (object_for e1)). set (d2 := snd (object_for e2)).
  assert (Hpair : In (d1, d2) (digest_pairs dataframe)).
  { rewrite digest_pairs_rows. apply in_map_iff. now exists (e1, e2). }
  pose proof (dropped_label_In _ _ _ Hpair Hsim) as Hdrop.
  apply combinations_In in Hin. destruct Hin as [H1 H2].
  unfold candidate in Hdrop.
  destruct (doc_len (doc d2) <? doc_len (doc d1)).
  - left. unfold d1 in Hdrop. now rewrite label_of_object in Hdrop.
  - right. unfold d2 in Hdrop. now rewrite label_of_object in Hdrop.
Qed.

(** Each pair of objects is the pair of the objects of two rows. *)
Lemma digest_pair_rows dataframe d1 d2 :
  In (d1, d2) (digest_pairs dataframe) ->
  exists r1 r2,
    In (r1, r2) (combinations dataframe) /\
    doc d1 = parsed r1 /\ doc d2 = parsed r2 /\
    label_of dataframe d1 = index r1 /\ label_of dataframe d2 = index r2.
Proof.
  rewrite digest_pairs_rows. intros Hin.
  apply in_map_iff in Hin. destruct Hin as ([e1 e2] & [= <- <-] & Hin).
  exists (snd e1), (snd e2). simpl fst; simpl snd. split.
  - rewrite row_pairs. apply in_map_iff. now exists (e1, e2).
  - apply combinations_In in Hin. destruct Hin as [H1 H2].
    repeat split; try reflexivity; now apply label_of_object.
Qed.

Lemma kept_pairs_differ dataframe r1 r2 :
  In (r1, r2) (combinations (remove_similar dataframe)) ->
  near_duplicates r1 r2 = false.
Proof.
  rewrite remove_similar_filter. intros Hin.
  apply combinations_filter in Hin. destruct Hin as (Hin & Hk1 & Hk2).
  apply keeps_spec in Hk1. apply keeps_spec in Hk2.
  destruct (near_duplicates r1 r2) eqn:E; [|reflexivity].
  destruct (near_duplicates_drop _ _ _ Hin E); contradiction.
Qed.

Lemma unchanged_iff dataframe :
  remove_similar dataframe = dataframe <->
  (forall r1 r2, In (r1, r2) (combinations dataframe) ->
                 near_duplicates r1 r2 = false).
Proof.
  split.
  - intros Hsame r1 r2 Hin. apply kept_pairs_differ with dataframe.
    now rewrite Hsame.
  - intros Hnone. rewrite remove_similar_filter.
    assert (Hnil : dropped_labels dataframe = []).
    { unfold dropped_labels, labels_of.
      rewrite filter_none; [reflexivity|].
      intros [d1 d2] Hin.
      destruct (digest_pair_rows _ _ _ Hin) as (r1 & r2 & Hr & E1 & E2 & _).
      simpl. unfold similar. rewrite E1, E2. exact (Hnone _ _ Hr). }
    rewrite Hnil. now apply filter_all.
Qed.

(** X8.  No two rows of the output are near-duplicates: every pair of
    rows the pass keeps has a similarity below 0.87. *)
Theorem no_near_duplicates_left (dataframe : DataFrame) (r1 r2 : Row) :
  In (r1, r2) (combinations (remove_similar dataframe)) ->
  (similarity (parsed r1) (parsed r2) < threshold)%Q.
Proof.
  intros Hin. apply kept_pairs_differ in Hin.
  unfold near_duplicates in Hin. apply Qnot_le_lt. intros Hle.
  apply Qle_bool_iff in Hle. congruence.
Qed.

(** X9.  The pass returns the dataframe unchanged exactly when no pair
    of its rows is a near-duplicate; in particular a dataframe of fewer
    than two rows is returned as it is. *)
Theorem unchanged_without_duplicates (dataframe : DataFrame) :
  (remove_similar dataframe = dataframe <->
   forall r1 r2, In (r1, r2) (combinations dataframe) ->
                 near_duplicates r1 r2 = false) /\
  (length dataframe < 2 -> remove_similar dataframe = dataframe).
Proof.
  split; [apply unchanged_iff|].
  intros Hshort. apply unchanged_iff.
  destruct dataframe as [|r [|r' rest]]; simpl in *; try tauto; lia.
Qed.

(** X10.  A second pass changes nothing. *)
Theorem remove_similar_idempotent (dataframe : DataFrame) :
  remove_similar (remove_similar dataframe) = remove_similar dataframe.
Proof. apply unchanged_iff. intros r1 r2. apply kept_pairs_differ. Qed.

End WithModel.

(** Of two near-identical digests and a third on another subject, the
    first and the third stay, and they are not near-duplicates. *)
Lemma no_near_duplicates_left_witness :
  let r1 := {| index := 0;
               Digest := [Sample.voda; Sample.reka; Sample.leto] |} in
  let r2 := {| index := 2; Digest := [Sample.bank; Sample.kredit] |} in
  remove_similar (M := Sample.spacy) Sample.mixed_rows = [r1; r2] /\
  (similarity (SpacyModel := Sample.spacy)
     (parsed (M := Sample.spacy) r1) (parsed (M := Sample.spacy) r2)
   < threshold)%Q.
Proof.
  intros r1 r2. split; [vm_compute; reflexivity|].
  apply (@no_near_duplicates_left Sample.spacy Sample.mixed_rows r1 r2).
  vm_compute. left. reflexivity.
Defined.

Lemma earliest_minimum {A} (f : A -> nat) (l : list A) :
  l <> [] ->
  exists i r, nth_error l i = Some r /\
    forall j r', nth_error l j = Some r' ->
                 f r <= f r' /\ (j < i -> f r < f r').
Proof.
  induction l as [|x l IH]; [congruence|]. intros _.
  destruct l as [|y l].
  - exists 0, x. split; [reflexivity|].
    intros [|[|j]] r' Hj; simpl in Hj; try discriminate.
    injection Hj as <-. lia.
  - destruct IH as (i & r & Hi & Hmin); [discriminate|].
    destruct (le_lt_dec (f x) (f r)) as [Hle|Hlt].
    + exists 0, x. split; [reflexivity|].
      intros [|j] r' Hj; simpl in Hj.
      * injection Hj as <-. lia.
      * destruct (Hmin j r' Hj). lia.
    + exists (S i), r. split; [exact Hi|].
      intros [|j] r' Hj; simpl in Hj.
      * injection Hj as <-. lia.
      * destruct (Hmin j r' Hj). lia.
Qed.

Section Survivor.
Context `{M : SpacyModel}.

Lemma object_In dataframe d :
  In d (map snd (temp_series dataframe)) ->
  exists r, nth_error dataframe (oid d) = Some r /\
            doc d = parsed r /\ label_of dataframe d = index r.
Proof.
  intros Hin. destruct (temp_series_In _ _ Hin) as (r & Hr & Hdoc).
  exists r. repeat split; [exact Hr | exact Hdoc |].
  unfold label_of. now rewrite Hr.
Qed.

(** With distinct labels, a row is dropped only as a removal
    candidate. *)
Lemma dropped_is_candidate dataframe i r :
  NoDup (map index dataframe) ->
  nth_error dataframe i = Some r ->
  In (index r) (dropped_labels dataframe) ->
  exists d1 d2,
    In (d1, d2) (digest_pairs dataframe) /\ oid (candidate d1 d2) = i.
Proof.
  intros Hnd Hr Hin. unfold dropped_labels, labels_of in Hin.
  apply in_map_iff in Hin. destruct Hin as ([d1 d2] & Hlabel & Hin).
  apply filter_In in Hin. destruct Hin as [Hin _]. simpl in Hlabel.
  exists d1, d2. split; [exact Hin|].
  assert (Hc : In (candidate d1 d2) (map snd (temp_series dataframe))).
  { apply combinations_In in Hin. destruct Hin.
    unfold candidate. destruct (_ <? _); assumption. }
  destruct (object_In _ _ Hc) as (rc & Hrc & _ & Hlc).
  rewrite Hlc in Hlabel.
  assert (Hlt : oid (candidate d1 d2) < length (map index dataframe)).
  { rewrite length_map. apply nth_error_Some. congruence. }
  apply (proj1 (NoDup_nth_error (map index dataframe)) Hnd _ _ Hlt).
  rewrite !nth_error_map, Hrc, Hr. simpl. now rewrite Hlabel.
Qed.

(** X11.  With distinct index labels, the first of the rows with the
    shortest digest is never removed; so the pass never empties a
    dataframe that has a row. *)
Theorem earliest_shortest_survives (dataframe : DataFrame) :
  NoDup (map index dataframe) ->
  (forall i r,
     nth_error dataframe i = Some r ->
     (forall j r', nth_error dataframe j = Some r' ->
        digest_len r <= digest_len r' /\
        (j < i -> digest_len r < digest_len r')) ->
     In r (remove_similar dataframe)) /\
  (dataframe <> [] -> remove_similar dataframe <> []).
Proof.
  intros Hnd.
  assert (Hkeep : forall i r,
     nth_error dataframe i = Some r ->
     (forall j r', nth_error dataframe j = Some r' ->
        digest_len r <= digest_len r' /\
        (j < i -> digest_len r < digest_len r')) ->
     In r (remove_similar dataframe)).
  { intros i r Hr Hmin. rewrite remove_similar_filter.
    apply filter_In. split; [eapply nth_error_In; exact Hr|].
    apply keeps_spec. intros Hdrop.
    destruct (dropped_is_candidate _ _ Hnd Hr Hdrop) as (d1 & d2 & Hin & Hc).
    assert (Horder : oid d1 < oid d2).
    { apply (@combinations_ordered _ (fun a b => oid a < oid b)
               (map snd (temp_series dataframe)));
        [apply temp_series_sorted | exact Hin]. }
    apply combinations_In in Hin. destruct Hin as [H1 H2].
    destruct (object_In _ _ H1) as (r1 & Hr1 & Hd1 & _).
    destruct (object_In _ _ H2) as (r2 & Hr2 & Hd2 & _).
    unfold candidate in Hc.
    destruct (Nat.ltb_spec (doc_len (doc d2)) (doc_len (doc d1))) as [Hlt|Hge].
    - rewrite Hc in Hr1. assert (r1 = r) by congruence. subst r1.
      destruct (Hmin _ _ Hr2) as [Hle _].
      unfold digest_len in Hle. rewrite Hd1, Hd2 in Hlt. lia.
    - rewrite Hc in Hr2. assert (r2 = r) by congruence. subst r2.
      rewrite Hc in Horder.
      destruct (Hmin _ _ Hr1) as [_ Hless]. specialize (Hless Horder).
      unfold digest_len in Hless. rewrite Hd1, Hd2 in Hge. lia. }
  split; [exact Hkeep|].
  intros Hne Hnil.
  destruct (earliest_minimum digest_len Hne) as (i & r & Hr & Hmin).
  pose proof (Hkeep i r Hr Hmin) as Hin. rewrite Hnil in Hin. exact Hin.
Qed.

End Survivor.

(** The chain of three near-duplicates: the row with the shortest digest
    is what remains. *)
Lemma earliest_shortest_survives_witness :
  In {| index := 2; Digest := [Sample.voda; Sample.reka] |}
     (remove_similar (M := Sample.spacy) Sample.three_rows) /\
  remove_similar (M := Sample.spacy) Sample.three_rows <> [].
Proof.
  assert (Hnd : NoDup (map index Sample.three_rows)).
  { simpl. repeat constructor; simpl; intuition discriminate. }
  destruct (@earliest_shortest_survives Sample.spacy Sample.three_rows Hnd)
    as [Hkeep Hne].
  split; [|apply Hne; discriminate].
  apply (Hkeep 2); [reflexivity|].
  intros j r' Hj.
  destruct j as [|[|[|j]]]; simpl in Hj;
    [injection Hj as <- .. | destruct j; discriminate];
    vm_compute; split; intros; lia.
Defined.

End DedupMore.

(** ** Text Normalizer: what the substitutions do to a text *)

Module NormalizerMore.
Import Normalizer NormalizerTheorems.

Lemma deleted_refl s : deleted_from s s.
Proof. induction s; constructor; assumption. Qed.

Lemma deleted_In a b c : deleted_from a b -> In c a -> In c b.
Proof.
  induction 1 as [|x a b _ IH|x a b _ IH]; simpl; [tauto| |]; intuition.
Qed.

Lemma deleted_trans a b c :
  deleted_from a b -> deleted_from b c -> deleted_from a c.
Proof.
  intros Hab Hbc. revert a Hab.
  induction Hbc as [|x b c _ IH|x b c _ IH]; intros a Hab.
  - exact Hab.
  - inversion Hab; subst; constructor; now apply IH.
  - constructor. now apply IH.
Qed.

Lemma deleted_filter (p : N -> bool) s : deleted_from (filter p s) s.
Proof.
  induction s as [|c s IH]; simpl; [constructor|].
  destruct (p c); constructor; assumption.
Qed.

(** *** The e-mail substitution *)

Lemma sub_email_go_deleted s : forall in_match,
  deleted_from (sub_email_go in_match s) s.
Proof.
  induction s as [|c s IH]; intros in_match; [constructor|].
  cbn [sub_email_go]. destruct in_match.
  - destruct (is_space c); constructor; apply IH.
  - destruct (run_has_at (c :: s)); constructor; apply IH.
Qed.

Lemma run_has_at_In s : run_has_at s = true -> In at_sign s.
Proof.
  induction s as [|c s IH]; simpl; [discriminate|].
  destruct (is_space c); [discriminate|].
  destruct (N.eqb_spec c at_sign) as [->|_]; simpl; auto.
Qed.

Lemma sub_email_go_same s :
  ~ In at_sign s -> sub_email_go false s = s.
Proof.
  induction s as [|c s IH]; intros Hno; [reflexivity|].
  cbn [sub_email_go].
  destruct (run_has_at (c :: s)) eqn:E.
  - apply run_has_at_In in E. contradiction.
  - f_equal. apply IH. intros Hin. apply Hno. now right.
Qed.

(** X12.  After the e-mail substitution the text has no [@]; the
    substitution only deletes characters; and a text without [@] is left
    as it is. *)
Theorem sub_email_spec (article : str) :
  ~ In at_sign (sub_email article) /\
  deleted_from (sub_email article) article /\
  (~ In at_sign article -> sub_email article = article).
Proof.
  repeat split.
  - apply sub_email_go_no_at.
  - apply sub_email_go_deleted.
  - apply sub_email_go_same.
Qed.

(** *** The [http] substitution *)

Lemma sub_http_go_deleted s : forall in_match,
  deleted_from (sub_http_go in_match s) s.
Proof.
  induction s as [|c s IH]; intros in_match; [constructor|].
  cbn [sub_http_go]. destruct in_match.
  - destruct (is_space c); constructor; apply IH.
  - destruct (http_here (c :: s)); constructor; apply IH.
Qed.

Lemma starts_with_app p s :
  starts_with p s = true <-> exists r, s = p ++ r.
Proof.
  revert s. induction p as [|x p IH]; intros s; simpl.
  - split; [now exists s | reflexivity].
  - destruct s as [|y s]; [split; [discriminate | intros (r & Hr); discriminate]|].
    rewrite andb_true_iff, N.eqb_eq, IH. split.
    + intros (-> & r & ->). now exists r.
    + intros (r & [= -> ->]). split; [reflexivity | now exists r].
Qed.

Lemma http_here_shape s :
  http_here s = true <->
  exists d r, s = http ++ d :: r /\ is_space d = false.
Proof.
  unfold http_here. split.
  - intros H. apply andb_true_iff in H. destruct H as [Hs Hd].
    apply starts_with_app in Hs. destruct Hs as (r0 & ->).
    change (skipn 4 (http ++ r0)) with r0 in Hd.
    destruct r0 as [|d r]; [discriminate|].
    exists d, r. split; [reflexivity|]. now apply negb_true_iff.
  - intros (d & r & -> & Hd). apply andb_true_iff. split.
    + apply starts_with_app. now exists (d :: r).
    + change (negb (is_space d) = true). now rewrite Hd.
Qed.

(** While a match is being dropped, the next character to come out is a
    space. *)
Lemma sub_http_go_after_match s :
  match sub_http_go true s with
  | [] => True
  | c :: _ => is_space c = true
  end.
Proof.
  induction s as [|c s IH]; simpl; [exact I|].
  destruct (is_space c) eqn:E; [exact E | exact IH].
Qed.

(** A run of non-space characters at the head of the result stood at the
    head of the text. *)
Lemma sub_http_go_prefix p : forall s rest,
  sub_http_go false s = p ++ rest ->
  forallb (fun c => negb (is_space c)) p = true ->
  exists rest', s = p ++ rest'.
Proof.
  induction p as [|x p IH]; intros s rest Hout Hp.
  - now exists s.
  - simpl in Hp. apply andb_true_iff in Hp. destruct Hp as [Hx Hp].
    destruct s as [|c s]; [discriminate|].
    cbn [sub_http_go] in Hout.
    destruct (http_here (c :: s)).
    + pose proof (sub_http_go_after_match s) as Hsp.
      rewrite Hout in Hsp. simpl in Hsp. rewrite Hsp in Hx. discriminate.
    + injection Hout as -> Hout.
      destruct (IH _ _ Hout Hp) as (rest' & ->). now exists rest'.
Qed.

Lemma sub_http_go_free s : forall in_match,
  http_free (sub_http_go in_match s) = true.
Proof.
  induction s as [|c s IH]; intros in_match; [reflexivity|].
  cbn [sub_http_go].
  assert (Hkeep : http_here (c :: s) = false ->
                  http_free (c :: sub_http_go false s) = true).
  { intros Hno. cbn [http_free]. rewrite IH, andb_true_r.
    apply negb_true_iff.
    destruct (http_here (c :: sub_http_go false s)) eqn:E; [|reflexivity].
    apply http_here_shape in E. destruct E as (d & r & Hs & Hd).
    unfold http in Hs. simpl in Hs. injection Hs as -> Hs.
    destruct (@sub_http_go_prefix [116; 116; 112; d]%N s r Hs) as (rest' & ->).
    { simpl. now rewrite Hd. }
    rewrite <- Hno. symmetry. apply http_here_shape.
    exists d, rest'. now split. }
  destruct in_match.
  - destruct (is_space c) eqn:E; [|apply IH].
    apply Hkeep.
    destruct (http_here (c :: s)) eqn:Hh; [|reflexivity].
    apply http_here_shape in Hh. destruct Hh as (d & r & Hs & _).
    unfold http in Hs. simpl in Hs. injection Hs as -> _. discriminate E.
  - destruct (http_here (c :: s)) eqn:Hh; [apply IH | now apply Hkeep].
Qed.

(** X13.  After the [http] substitution no position of the text starts
    a link ([http] and a non-space character), and the substitution only
    deletes characters. *)
Theorem sub_http_spec (article : str) :
  http_free (sub_http article) = true /\
  deleted_from (sub_http article) article.
Proof.
  split; [apply sub_http_go_free | apply sub_http_go_deleted].
Qed.

(** *** The whole cleaning *)

Lemma sub_www_go_deleted s : forall fixed in_run,
  deleted_from (sub_www_go fixed in_run s) s.
Proof.
  induction s as [|c s IH]; intros fixed in_run; [constructor|].
  cbn [sub_www_go]. destruct fixed; [|constructor; apply IH].
  destruct in_run.
  - destruct (is_space c); constructor; apply IH.
  - destruct (www_here (c :: s)); constructor; apply IH.
Qed.

(** The last substitution loses no letter of the class. *)
Lemma sub_non_cyrillic_go_letters s : forall in_run,
  filter is_cyrillic (sub_non_cyrillic_go in_run s) = filter is_cyrillic s.
Proof.
  induction s as [|c s IH]; intros in_run; simpl; [reflexivity|].
  destruct (is_cyrillic c) eqn:E; simpl.
  - rewrite E. f_equal. apply IH.
  - destruct in_run; simpl; apply IH.
Qed.

Lemma single_spaced_cons c s :
  single_spaced (c :: s) =
  negb (N.eqb c blank && starts_blank s) && single_spaced s.
Proof. destruct s; simpl; [now rewrite andb_false_r | reflexivity]. Qed.

Lemma sub_non_cyrillic_go_spaced s : forall in_run,
  single_spaced (sub_non_cyrillic_go in_run s) = true /\
  (in_run = true -> starts_blank (sub_non_cyrillic_go in_run s) = false).
Proof.
  induction s as [|c s IH]; intros in_run; simpl; [auto|].
  destruct (is_cyrillic c) eqn:E.
  - assert (Hc : N.eqb c blank = false).
    { destruct (N.eqb_spec c blank) as [->|]; [discriminate E | reflexivity]. }
    rewrite single_spaced_cons, Hc. simpl.
    split; [apply IH | auto].
  - destruct in_run.
    + apply IH.
    + rewrite single_spaced_cons.
      destruct (IH true) as [Hs Hb]. rewrite Hs, (Hb eq_refl). auto.
Qed.

(** X14.  The cleaned text is made of the letters of the class and of
    single spaces, and its letters are letters of the article, in the
    order they have there. *)
Theorem clean_shape (article : str) :
  forallb in_script (clean article) = true /\
  single_spaced (clean article) = true /\
  deleted_from (filter is_cyrillic (clean article)) article.
Proof.
  split; [apply clean_script|].
  split; [apply sub_non_cyrillic_go_spaced|].
  unfold clean, sub_non_cyrillic. rewrite sub_non_cyrillic_go_letters.
  eapply deleted_trans; [apply deleted_filter|].
  eapply deleted_trans; [apply sub_www_go_deleted|].
  eapply deleted_trans; [apply sub_http_go_deleted|].
  apply sub_email_go_deleted.
Qed.

Lemma sub_http_go_same s : ~ In 104%N s -> sub_http_go false s = s.
Proof.
  induction s as [|c s IH]; intros Hno; [reflexivity|].
  cbn [sub_http_go].
  destruct (http_here (c :: s)) eqn:E.
  - apply http_here_shape in E. destruct E as (d & r & Hs & _).
    exfalso. apply Hno. rewrite Hs. now left.
  - f_equal. apply IH. intros Hin. apply Hno. now right.
Qed.

Lemma sub_www_go_same s : ~ In 119%N s -> sub_www_go 0 false s = s.
Proof.
  induction s as [|c s IH]; intros Hno; [reflexivity|].
  cbn [sub_www_go].
  destruct (www_here (c :: s)) eqn:E.
  - unfold www_here in E. apply andb_true_iff in E. destruct E as [E _].
    apply starts_with_app in E. destruct E as (r & Hs).
    exfalso. apply Hno. rewrite Hs. now left.
  - f_equal. apply IH. intros Hin. apply Hno. now right.
Qed.

Lemma sub_non_cyrillic_go_same s :
  forallb in_script s = true -> single_spaced s = true ->
  sub_non_cyrillic_go false s = s /\
  (starts_blank s = false -> sub_non_cyrillic_go true s = s).
Proof.
  induction s as [|c s IH]; intros Hscript Hspaced; [auto|].
  simpl in Hscript. apply andb_true_iff in Hscript.
  destruct Hscript as [Hc Hscript].
  rewrite single_spaced_cons in Hspaced. apply andb_true_iff in Hspaced.
  destruct Hspaced as [Hcs Hspaced].
  destruct (IH Hscript Hspaced) as [Hfalse Htrue].
  cbn [sub_non_cyrillic_go starts_blank].
  unfold in_script in Hc.
  destruct (is_cyrillic c) eqn:E.
  - rewrite Hfalse. auto.
  - simpl in Hc. rewrite Hc in Hcs. simpl in Hcs.
    apply negb_true_iff in Hcs. rewrite (Htrue Hcs).
    apply N.eqb_eq in Hc. subst c. split; [reflexivity | discriminate].
Qed.

Lemma clean_fixed (article : str) : clean (clean article) = clean article.
Proof.
  pose proof (clean_script article) as Hscript.
  assert (Hspaced : single_spaced (clean article) = true)
    by apply sub_non_cyrillic_go_spaced.
  set (t := clean article) in *.
  assert (Hno : forall x, in_script x = false -> ~ In x t).
  { intros x Hx Hin. rewrite forallb_forall in Hscript.
    specialize (Hscript x Hin). congruence. }
  unfold clean, sub_email, sub_http, sub_www, sub_non_cyrillic.
  rewrite sub_email_go_same by (apply Hno; reflexivity).
  rewrite sub_http_go_same by (apply Hno; reflexivity).
  rewrite sub_www_go_same by (apply Hno; reflexivity).
  now apply sub_non_cyrillic_go_same.
Qed.

(** X15.  Cleaning a cleaned text changes nothing, so normalising a
    cleaned text gives the lemmas of the original. *)
Theorem clean_idempotent `{M : SpacyModel} (article : str) :
  clean (clean article) = clean article /\
  lemmatize (clean article) = lemmatize article.
Proof.
  split; [apply clean_fixed|].
  unfold lemmatize. now rewrite clean_fixed.
Qed.

Lemma sub_non_cyrillic_go_no_letters s :
  (forall c, In c s -> is_cyrillic c = false) ->
  sub_non_cyrillic_go true s = [] /\
  sub_non_cyrillic_go false s = match s with [] => [] | _ => [blank] end.
Proof.
  induction s as [|c s IH]; intros Hno; [auto|].
  cbn [sub_non_cyrillic_go]. rewrite (Hno c) by now left.
  destruct IH as [Htrue _]; [intros; apply Hno; now right|].
  rewrite Htrue. auto.
Qed.

(** X16.  An article without a letter of the class is cleaned to the
    empty text or to a single space: nothing of it reaches the language
    model. *)
Theorem clean_without_letters (article : str) :
  (forall c, In c article -> is_cyrillic c = false) ->
  clean article = [] \/ clean article = [blank].
Proof.
  intros Hno. unfold clean, sub_non_cyrillic.
  set (t := sub_www (sub_http (sub_email article))).
  assert (Ht : forall c, In c t -> is_cyrillic c = false).
  { intros c Hc. apply Hno. revert Hc. apply deleted_In.
    eapply deleted_trans; [apply sub_www_go_deleted|].
    eapply deleted_trans; [apply sub_http_go_deleted|].
    apply sub_email_go_deleted. }
  destruct (sub_non_cyrillic_go_no_letters t Ht) as [_ ->].
  destruct t; auto.
Qed.

(** A line of digits, Latin letters and a link. *)
Lemma clean_without_letters_witness :
  clean (utf8 "2024: see http://vtb.ru, tel. 8-800") = [blank].
Proof.
  destruct (@clean_without_letters (utf8 "2024: see http://vtb.ru, tel. 8-800"))
    as [H|H].
  - intros c Hc. vm_compute in Hc.
    repeat (destruct Hc as [<-|Hc]; [reflexivity|]). destruct Hc.
  - vm_compute in H. discriminate H.
  - exact H.
Defined.

End NormalizerMore.
